(** * Kubernetes token cache and fetch client (package okteto)

    A shallow embedding of [FileByteStore], [KubeTokenCache] and
    [KubeTokenClient].  Byte slices and Go strings are Rocq strings, the
    instant returned by [time.Now] is an explicit argument, and every
    method that touches the backing store is a state-passing function
    returning the new state together with a value or an error.  The
    collaborators the package only consumes (the operating system, the
    encoding/json codec, the HTTP transport) are records of operations. *)

From Stdlib Require Import ZArith String Ascii List Lia Bool.
From Stdlib Require Import DecimalString DecimalZ.
From stdpp Require Import base option list strings gmap.
From stdpp Require Import sorting.

Local Open Scope Z_scope.

(** ** Errors *)

(** Errors of the [os] package; [errors.Is(err, os.ErrNotExist)] is
    [isNotExist]. *)
Inductive oserror := ErrNotExist | ErrPermission | ErrIO.

Definition isNotExist (e : oserror) : bool :=
  match e with ErrNotExist => true | _ => false end.

(** One constructor per error the package builds or passes on. *)
Inductive error :=
| ErrCheckingFile (cause : oserror)   (* "error checking if file exists: %w" *)
| ErrCreatingFile (cause : oserror)   (* "error creating file: %w" *)
| ErrReadingFile (cause : oserror)    (* "error reading file: %w" *)
| ErrOS (cause : oserror)             (* an os error returned as it is *)
| ErrDecoding                         (* "error decoding" *)
| ErrMarshal                          (* the error of json.MarshalIndent *)
| ErrFailedGet (cause : string)       (* "failed GET request: %w" *)
| ErrNotLogged (contextName : string) (* oktetoErrors.ErrNotLogged, with the context *)
| ErrStatus (status : string)         (* "GET request returned status %s" *)
| ErrReadResponse (cause : string)    (* "failed to read kubetoken response: %w" *)
| ErrUnmarshalResponse.               (* "failed to unmarshal kubetoken response: %w" *)

Inductive result (A : Type) :=
| Ok (a : A)
| Err (e : error).
Arguments Ok {A} a.
Arguments Err {A} e.

(** ** A state and error monad for the methods *)

Definition M (S A : Type) : Type := S -> S * result A.

Definition ret {S A} (a : A) : M S A := fun s => (s, Ok a).

Definition fail {S A} (e : error) : M S A := fun s => (s, Err e).

Definition bind {S A B} (m : M S A) (k : A -> M S B) : M S B :=
  fun s => match m s with
           | (s', Ok a) => k a s'
           | (s', Err e) => (s', Err e)
           end.

Notation "'do' x <- m ; k" := (bind m (fun x => k))
  (at level 10, x name, m at level 100, k at level 200).

(** ** Data model *)

(** Byte slices, [[]byte], converted to and from [string] freely. *)
Abbreviation bytes := string.

(** Instants; [t.After(u)] holds when [t] is strictly later than [u]. *)
Definition Time := Z.

Definition After (t u : Time) : bool := u <? t.

Record storeRegister (TokenRequest : Type) := {
  ContextName : string;
  Namespace : string;
  Token : TokenRequest
}.
Arguments ContextName {TokenRequest} _.
Arguments Namespace {TokenRequest} _.
Arguments Token {TokenRequest} _.

(** The codec of encoding/json at the two types the package uses it at. *)
Record JSON (TokenRequest : Type) := {
  MarshalIndentToken : TokenRequest -> option bytes;
  UnmarshalToken : bytes -> option TokenRequest;
  MarshalIndentStore : list (storeRegister TokenRequest) -> option bytes;
  UnmarshalStore : bytes -> option (list (storeRegister TokenRequest))
}.
Arguments MarshalIndentToken {TokenRequest} _ _.
Arguments UnmarshalToken {TokenRequest} _ _.
Arguments MarshalIndentStore {TokenRequest} _ _.
Arguments UnmarshalStore {TokenRequest} _ _.

(** The [stringStore] interface. *)
Record stringStore (S : Type) := {
  ssGet : M S bytes;
  ssSet : bytes -> M S unit
}.
Arguments ssGet {S} _ _.
Arguments ssSet {S} _ _ _.

(** The calls of package [os] that [FileByteStore] makes, over a world [W]. *)
Record OS (W : Type) := {
  Stat : string -> W -> option oserror;
  WriteFile : string -> bytes -> W -> W * option oserror;
  ReadFile : string -> W -> oserror + bytes
}.
Arguments Stat {W} _ _ _.
Arguments WriteFile {W} _ _ _ _.
Arguments ReadFile {W} _ _ _.

(** ** FileByteStore *)

Record FileByteStore := { FileName : string }.

Definition FileByteStore_Get {W} (os : OS W) (s : FileByteStore) : M W bytes :=
  fun w =>
    let readContents (w1 : W) :=
      match ReadFile os (FileName s) w1 with
      | inl err => (w1, Err (ErrReadingFile err))
      | inr contents => (w1, Ok contents)
      end in
    match Stat os (FileName s) w with
    | Some err =>
        if negb (isNotExist err) then (w, Err (ErrCheckingFile err))
        else match WriteFile os (FileName s) "[]"%string w with
             | (w1, Some err1) => (w1, Err (ErrCreatingFile err1))
             | (w1, None) => readContents w1
             end
    | None => readContents w
    end.

Definition FileByteStore_Set {W} (os : OS W) (s : FileByteStore) (value : bytes)
  : M W unit :=
  fun w => match WriteFile os (FileName s) value w with
           | (w1, Some err) => (w1, Err (ErrOS err))
           | (w1, None) => (w1, Ok tt)
           end.

(** [*FileByteStore] as a [stringStore]. *)
Definition FileByteStore_stringStore {W} (os : OS W) (s : FileByteStore)
  : stringStore W :=
  {| ssGet := FileByteStore_Get os s; ssSet := FileByteStore_Set os s |}.

(** ** KubeTokenCache *)

Record KubeTokenCache (S : Type) := { StringStore : stringStore S }.
Arguments StringStore {S} _.

Section Cache.
Context {TokenRequest : Type}.
(** [token.Status.ExpirationTimestamp.Time] *)
Variable ExpirationTimestamp : TokenRequest -> Time.
Variable json : JSON TokenRequest.
Context {S : Type}.

Local Abbreviation register := (storeRegister TokenRequest).

Definition read (c : KubeTokenCache S) : M S (list register) :=
  do contents <- ssGet (StringStore c);
  match UnmarshalStore json contents with
  | None => fail ErrDecoding
  | Some store => ret store
  end.

(** [r.ContextName == contextName && r.Namespace == namespace] *)
Definition sameKey (contextName namespace : string) (r : register) : bool :=
  String.eqb (ContextName r) contextName && String.eqb (Namespace r) namespace.

(** The range loop of [Get], which returns at the first entry with the key. *)
Fixpoint getLoop (contextName namespace : string) (now : Time)
    (store : list register) : string :=
  match store with
  | [] => ""%string
  | r :: rest =>
      if sameKey contextName namespace r then
        if After (ExpirationTimestamp (Token r)) now then
          match MarshalIndentToken json (Token r) with
          | Some tokenString => tokenString
          | None => ""%string
          end
        else ""%string
      else getLoop contextName namespace now rest
  end.

Definition Get (c : KubeTokenCache S) (contextName namespace : string)
    (now : Time) : M S string :=
  do store <- read c;
  ret (getLoop contextName namespace now store).

(** [store[i].Token = token] *)
Definition withToken (r : register) (token : TokenRequest) : register :=
  {| ContextName := ContextName r; Namespace := Namespace r; Token := token |}.

(** One iteration of the range loop of [setWithErr], at index [i]. *)
Definition setLoopBody (contextName namespace : string) (token : TokenRequest)
    (acc : list register * bool) (i : nat) : list register * bool :=
  let '(store, existed) := acc in
  match store !! i with
  | Some r =>
      if sameKey contextName namespace r
      then (<[i := withToken r token]> store, true)
      else (store, existed)
  | None => (store, existed)
  end.

Definition setLoop (contextName namespace : string) (token : TokenRequest)
    (store : list register) : list register * bool :=
  foldl (setLoopBody contextName namespace token) (store, false)
        (seq 0 (length store)).

(** The sequence [setWithErr] serializes: the loop, then the append. *)
Definition upsert (contextName namespace : string) (token : TokenRequest)
    (store : list register) : list register :=
  let '(store1, existed) := setLoop contextName namespace token store in
  if negb existed
  then store1 ++ [ {| ContextName := contextName; Namespace := namespace;
                      Token := token |} ]
  else store1.

Definition setWithErr (c : KubeTokenCache S) (contextName namespace : string)
    (token : TokenRequest) : M S unit :=
  do store <- read c;
  match MarshalIndentStore json (upsert contextName namespace token store) with
  | None => fail ErrMarshal
  | Some newStore => ssSet (StringStore c) newStore
  end.

(** [Set], with an underscore as the name is a sort of Rocq: it drops the
    error of [setWithErr]. *)
Definition Set_ (c : KubeTokenCache S) (contextName namespace : string)
    (token : TokenRequest) (s : S) : S :=
  match setWithErr c contextName namespace token s with
  | (s', Err _) => s'
  | (s', Ok _) => s'
  end.
End Cache.

(** ** KubeTokenClient *)

(** The [cacheSetter] interface: a sink whose [Set] returns nothing. *)
Record cacheSetter (TokenRequest C : Type) := {
  cacheSet : string -> string -> TokenRequest -> C -> C
}.
Arguments cacheSet {TokenRequest C} _ _ _ _ _.

(** [*KubeTokenCache] as a [cacheSetter]. *)
Definition KubeTokenCache_cacheSetter {TokenRequest S} (json : JSON TokenRequest)
    (c : KubeTokenCache S) : cacheSetter TokenRequest S :=
  {| cacheSet := Set_ json c |}.

(** What the client looks at in an [http.Response]; [Body] is the outcome
    of [io.ReadAll(resp.Body)], the cause of the failure or the bytes. *)
Record Response := {
  StatusCode : Z;
  Status : string;
  Body : string + bytes
}.

Definition StatusOK : Z := 200.
Definition StatusUnauthorized : Z := 401.

Record KubeTokenClient (TokenRequest C : Type) := {
  (** [httpClient.Get]: the cause of a transport failure, or the response *)
  httpClient : string -> string + Response;
  url : string;
  contextName : string;
  namespace : string;
  cache : cacheSetter TokenRequest C
}.
Arguments httpClient {TokenRequest C} _ _.
Arguments url {TokenRequest C} _.
Arguments contextName {TokenRequest C} _.
Arguments namespace {TokenRequest C} _.
Arguments cache {TokenRequest C} _.

Definition GetKubeToken {TokenRequest C} (json : JSON TokenRequest)
    (c : KubeTokenClient TokenRequest C) : M C string :=
  fun st =>
    match httpClient c (url c) with
    | inl cause => (st, Err (ErrFailedGet cause))
    | inr resp =>
        if StatusCode resp =? StatusUnauthorized
        then (st, Err (ErrNotLogged (contextName c)))
        else if negb (StatusCode resp =? StatusOK)
        then (st, Err (ErrStatus (Status resp)))
        else match Body resp with
             | inl cause => (st, Err (ErrReadResponse cause))
             | inr body =>
                 match UnmarshalToken json body with
                 | None => (st, Err ErrUnmarshalResponse)
                 | Some token =>
                     (cacheSet (cache c) (contextName c) (namespace c) token st,
                      Ok body)
                 end
             end
    end.

(** ** Stores and worlds to run the code on *)

(** A byte store kept in memory: it never fails. *)
Definition memStore : stringStore bytes :=
  {| ssGet := fun s => (s, Ok s);
     ssSet := fun value _ => (value, Ok tt) |}.

(** A byte store that can be read but refuses every write. *)
Definition readOnlyStore : stringStore bytes :=
  {| ssGet := fun s => (s, Ok s);
     ssSet := fun _ s => (s, Err (ErrOS ErrPermission)) |}.

(** A store that records the calls made to the store it wraps. *)
Inductive call := CallGet | CallSet (value : bytes).

Definition traced {S} (X : stringStore S) : stringStore (S * list call) :=
  {| ssGet := fun st =>
       let '(s1, r) := ssGet X (fst st) in ((s1, snd st ++ [CallGet]), r);
     ssSet := fun value st =>
       let '(s1, r) := ssSet X value (fst st) in
       ((s1, snd st ++ [CallSet value]), r) |}.

(** A sink that records the calls to [Set]. *)
Definition recordingSink {TokenRequest}
  : cacheSetter TokenRequest (list (string * string * TokenRequest)) :=
  {| cacheSet := fun ctx ns token log => log ++ [(ctx, ns, token)] |}.

(** A file system in memory: a finite map from file names to contents,
    in which every call succeeds except on a file that is not there. *)
Definition memOS : OS (gmap string string) :=
  {| Stat := fun name w =>
       match w !! name with Some _ => None | None => Some ErrNotExist end;
     WriteFile := fun name value w => (<[name := value]> w, None);
     ReadFile := fun name w =>
       match w !! name with Some c => inr c | None => inl ErrNotExist end |}.

(** ** NewKubeTokenClient *)

Definition kubetokenPath : string := "auth/kubetoken".

(** The two ways the constructor fails: [oktetoErrors.ErrCtxNotSet], and the
    error of [newOktetoHttpClient] handed on as it is. *)
Inductive constructError :=
| ErrCtxNotSet
| ErrHttpClient (cause : string).

(** [newOktetoHttpClient], which lives in another file of the package: from
    the context, the token and a path it gives the cause of a failure, or an
    HTTP client and the URL to call. *)
Definition httpClientFactory : Type :=
  string -> string -> string -> string + ((string -> string + Response) * string).

Definition NewKubeTokenClient {TokenRequest C}
    (newOktetoHttpClient : httpClientFactory)
    (contextName token namespace : string) (cache : cacheSetter TokenRequest C)
  : constructError + KubeTokenClient TokenRequest C :=
  if String.eqb contextName "" then inl ErrCtxNotSet
  else
    match newOktetoHttpClient contextName token
            (kubetokenPath +:+ "/" +:+ namespace) with
    | inl err => inl (ErrHttpClient err)
    | inr (client, target) =>
        inr (Build_KubeTokenClient TokenRequest C
               client target contextName namespace cache)
    end.

(** ** A file system that records its writes *)

(** [WriteFile] is the one call of [OS] that changes the world; the wrapper
    keeps the list of the writes asked for, done or refused. *)
Definition tracedOS {W} (os : OS W) : OS (W * list (string * bytes)) :=
  {| Stat := fun name st => Stat os name (fst st);
     WriteFile := fun name value st =>
       let '(w1, r) := WriteFile os name value (fst st) in
       ((w1, snd st ++ [(name, value)]), r);
     ReadFile := fun name st => ReadFile os name (fst st) |}.

(** A file system whose files cannot be created or changed. *)
Definition readOnlyOS : OS (gmap string string) :=
  {| Stat := fun name w =>
       match w !! name with Some _ => None | None => Some ErrNotExist end;
     WriteFile := fun _ _ w => (w, Some ErrPermission);
     ReadFile := fun name w =>
       match w !! name with Some c => inr c | None => inl ErrNotExist end |}.

(** ** A reference codec

    A compact JSON encoder and decoder for a token that carries the two
    fields of its status section, to run the package on concrete bytes. *)
Module RefCodec.

Record token := {
  StatusToken : string;
  StatusExpirationTimestamp : Z
}.

Definition quoteChar : ascii := "034"%char.
Definition backslash : ascii := "\"%char.

Definition isSpecial (c : ascii) : bool :=
  Ascii.eqb c quoteChar || Ascii.eqb c backslash.

(** The characters of a string literal, each special one after a backslash. *)
Fixpoint escape (s : string) : string :=
  match s with
  | EmptyString => EmptyString
  | String c r =>
      if isSpecial c then String backslash (String c (escape r))
      else String c (escape r)
  end.

Definition quote (s : string) : string :=
  String quoteChar (escape s +:+ String quoteChar EmptyString).

Definition consFst (c : ascii) (p : string * string) : string * string :=
  (String c (fst p), snd p).

(** Reads up to the closing quote; returns the literal and what follows. *)
Fixpoint unescape (s : string) : option (string * string) :=
  match s with
  | EmptyString => None
  | String c r =>
      if Ascii.eqb c quoteChar then Some (EmptyString, r)
      else if Ascii.eqb c backslash then
        match r with
        | String d r' =>
            if isSpecial d then option_map (consFst d) (unescape r') else None
        | EmptyString => None
        end
      else option_map (consFst c) (unescape r)
  end.

Definition readString (s : string) : option (string * string) :=
  match s with
  | String c r => if Ascii.eqb c quoteChar then unescape r else None
  | EmptyString => None
  end.

(** Strips the literal [lit] from the front of [s]. *)
Fixpoint expect (lit s : string) : option string :=
  match lit with
  | EmptyString => Some s
  | String c lit' =>
      match s with
      | String d s' => if Ascii.eqb c d then expect lit' s' else None
      | EmptyString => None
      end
  end.

Definition key (name : string) : string := quote name +:+ ":".

Definition decimal (z : Z) : string :=
  DecimalString.NilEmpty.string_of_int (Z.to_int z).

Definition readDecimal (s : string) : option Z :=
  option_map Z.of_int (DecimalString.NilEmpty.int_of_string s).

Definition tokenHead : string := "{" +:+ key "status" +:+ "{" +:+ key "token".
Definition tokenMid : string := "," +:+ key "expirationTimestamp".
Definition tokenEnd : string := "}}".

Definition encodeToken (t : token) : string :=
  tokenHead +:+ quote (StatusToken t) +:+ tokenMid
    +:+ quote (decimal (StatusExpirationTimestamp t)) +:+ tokenEnd.

Definition readToken (s : string) : option (token * string) :=
  s1 ← expect tokenHead s;
  '(tok, s2) ← readString s1;
  s3 ← expect tokenMid s2;
  '(exp, s4) ← readString s3;
  z ← readDecimal exp;
  s5 ← expect tokenEnd s4;
  Some ({| StatusToken := tok; StatusExpirationTimestamp := z |}, s5).

Definition entryHead : string := "{" +:+ key "context".
Definition entryMid1 : string := "," +:+ key "namespace".
Definition entryMid2 : string := "," +:+ key "token".
Definition entryEnd : string := "}".

Definition encodeEntry (r : storeRegister token) : string :=
  entryHead +:+ quote (ContextName r) +:+ entryMid1 +:+ quote (Namespace r)
    +:+ entryMid2 +:+ encodeToken (Token r) +:+ entryEnd.

Definition readEntry (s : string) : option (storeRegister token * string) :=
  s1 ← expect entryHead s;
  '(ctx, s2) ← readString s1;
  s3 ← expect entryMid1 s2;
  '(ns, s4) ← readString s3;
  s5 ← expect entryMid2 s4;
  '(t, s6) ← readToken s5;
  s7 ← expect entryEnd s6;
  Some ({| ContextName := ctx; Namespace := ns; Token := t |}, s7).

(** The entries after the first, each after a comma, then the bracket. *)
Fixpoint encodeTail (rs : list (storeRegister token)) : string :=
  match rs with
  | [] => "]"
  | r :: rs' => "," +:+ encodeEntry r +:+ encodeTail rs'
  end.

Definition encodeStore (rs : list (storeRegister token)) : string :=
  match rs with
  | [] => "[]"
  | r :: rs' => "[" +:+ encodeEntry r +:+ encodeTail rs'
  end.

Fixpoint readTail (fuel : nat) (s : string)
  : option (list (storeRegister token) * string) :=
  match fuel with
  | O => None
  | Datatypes.S fuel' =>
      match s with
      | String c r =>
          if Ascii.eqb c "]" then Some ([], r)
          else if Ascii.eqb c "," then
            '(e, r1) ← readEntry r;
            '(es, r2) ← readTail fuel' r1;
            Some (e :: es, r2)
          else None
      | EmptyString => None
      end
  end.

Definition readStore (s : string) : option (list (storeRegister token)) :=
  match s with
  | String c r =>
      if Ascii.eqb c "[" then
        match r with
        | String d r' =>
            if Ascii.eqb d "]" then
              if String.eqb r' "" then Some [] else None
            else
              '(e, r1) ← readEntry r;
              '(es, r2) ← readTail (String.length r1) r1;
              if String.eqb r2 "" then Some (e :: es) else None
        | EmptyString => None
        end
      else None
  | EmptyString => None
  end.

Definition decodeToken (s : string) : option token :=
  '(t, rest) ← readToken s;
  if String.eqb rest "" then Some t else None.

Definition json : JSON token :=
  {| MarshalIndentToken := fun t => Some (encodeToken t);
     UnmarshalToken := decodeToken;
     MarshalIndentStore := fun rs => Some (encodeStore rs);
     UnmarshalStore := readStore |}.

Definition expiration : token -> Time := StatusExpirationTimestamp.

End RefCodec.

(** ** The reference codec with the string coercion of encoding/json

    encoding/json writes a string as valid UTF-8: every byte that does not
    belong to a well-formed UTF-8 sequence is written as U+FFFD, and reading
    the text back gives the three bytes of U+FFFD in its place; it reads
    strings under the same coercion.  The codec below is the reference codec
    with that coercion of the strings it writes and reads. *)
Module CoercingCodec.
Import RefCodec.

Definition inRange (lo hi : nat) (c : ascii) : bool :=
  Nat.leb lo (nat_of_ascii c) && Nat.leb (nat_of_ascii c) hi.

(** For the first byte of a sequence of several bytes: how many bytes the
    sequence has and the range its second byte must lie in; [None] for a
    byte that starts no sequence. *)
Definition leadByte (c : ascii) : option (nat * nat * nat) :=
  let n := nat_of_ascii c in
  if Nat.ltb n 194 then None
  else if Nat.leb n 223 then Some (2, 128, 191)%nat
  else if Nat.eqb n 224 then Some (3, 160, 191)%nat
  else if Nat.eqb n 237 then Some (3, 128, 159)%nat
  else if Nat.leb n 239 then Some (3, 128, 191)%nat
  else if Nat.eqb n 240 then Some (4, 144, 191)%nat
  else if Nat.leb n 243 then Some (4, 128, 191)%nat
  else if Nat.eqb n 244 then Some (4, 128, 143)%nat
  else None.

(** The bytes EF BF BD of U+FFFD. *)
Definition replacement : string :=
  String "239"%char (String "191"%char (String "189"%char EmptyString)).

Fixpoint coerce (s : string) : string :=
  match s with
  | EmptyString => EmptyString
  | String b0 r0 =>
      let bad := replacement +:+ coerce r0 in
      if Nat.ltb (nat_of_ascii b0) 128 then String b0 (coerce r0)
      else
        match leadByte b0 with
        | None => bad
        | Some (size, lo, hi) =>
            match r0 with
            | String b1 r1 =>
                if negb (inRange lo hi b1) then bad
                else if Nat.eqb size 2 then String b0 (String b1 (coerce r1))
                else
                  match r1 with
                  | String b2 r2 =>
                      if negb (inRange 128 191 b2) then bad
                      else if Nat.eqb size 3
                      then String b0 (String b1 (String b2 (coerce r2)))
                      else
                        match r2 with
                        | String b3 r3 =>
                            if negb (inRange 128 191 b3) then bad
                            else String b0 (String b1 (String b2
                                   (String b3 (coerce r3))))
                        | EmptyString => bad
                        end
                  | EmptyString => bad
                  end
            | EmptyString => bad
            end
        end
  end.

Definition coerceToken (t : token) : token :=
  {| StatusToken := coerce (StatusToken t);
     StatusExpirationTimestamp := StatusExpirationTimestamp t |}.

Definition coerceEntry (r : storeRegister token) : storeRegister token :=
  {| ContextName := coerce (ContextName r);
     Namespace := coerce (Namespace r);
     Token := coerceToken (Token r) |}.

Definition json : JSON token :=
  {| MarshalIndentToken := fun t => Some (encodeToken (coerceToken t));
     UnmarshalToken := fun b => option_map coerceToken (decodeToken b);
     MarshalIndentStore := fun rs => Some (encodeStore (coerceEntry <$> rs));
     UnmarshalStore := fun b => option_map (List.map coerceEntry) (readStore b) |}.

End CoercingCodec.

(** ** Concrete tokens, stores and clients *)
Module Examples.
Import RefCodec.

(** A token that expires one hour after instant 0, and a second one. *)
Definition tokenA : token :=
  {| StatusToken := "tokenA"; StatusExpirationTimestamp := 3600 |}.
Definition tokenB : token :=
  {| StatusToken := "tokenB"; StatusExpirationTimestamp := 7200 |}.

(** A token that expired one hour before instant 0. *)
Definition tokenOld : token :=
  {| StatusToken := "tokenOld"; StatusExpirationTimestamp := -3600 |}.

Definition entry (ctx ns : string) (t : token) : storeRegister token :=
  {| ContextName := ctx; Namespace := ns; Token := t |}.

Definition twoKeys : list (storeRegister token) :=
  [entry "ctx1" "ns1" tokenA; entry "ctx2" "ns1" tokenOld].

(** Two entries for one key, the expired one first. *)
Definition sameKeyTwice : list (storeRegister token) :=
  [entry "ctx1" "ns1" tokenOld; entry "ctx1" "ns1" tokenA].

Definition memCache : KubeTokenCache bytes := {| StringStore := memStore |}.
Definition readOnlyCache : KubeTokenCache bytes :=
  {| StringStore := readOnlyStore |}.

Definition tokenFile : FileByteStore := {| FileName := "kubetoken.json" |}.
Definition fileCache : KubeTokenCache (gmap string string) :=
  {| StringStore := FileByteStore_stringStore memOS tokenFile |}.

(** A context of one byte, FF, which occurs in no UTF-8 text. *)
Definition badContext : string := String "255"%char EmptyString.

(** A token that expires one hour after instant 0 and whose text is that
    byte. *)
Definition tokenBad : token :=
  {| StatusToken := badContext; StatusExpirationTimestamp := 3600 |}.

(** Bytes that are no JSON text. *)
Definition garbage : bytes := "not json".

(** A client for context ctx1 and namespace ns1 whose endpoint always
    answers [resp], writing to the sink [sink]. *)
Definition clientWith {C} (sink : cacheSetter token C) (resp : Response)
  : KubeTokenClient token C :=
  {| httpClient := fun _ => inr resp;
     url := "https://okteto.example/auth/kubetoken/ns1";
     contextName := "ctx1";
     namespace := "ns1";
     cache := sink |}.

Definition clientOf (kc : KubeTokenCache bytes) (resp : Response)
  : KubeTokenClient token bytes :=
  clientWith (KubeTokenCache_cacheSetter json kc) resp.

Definition okResponse : Response :=
  {| StatusCode := 200; Status := "200 OK"; Body := inr (encodeToken tokenA) |}.
Definition unauthorized : Response :=
  {| StatusCode := 401; Status := "401 Unauthorized"; Body := inr ""%string |}.
Definition serverError : Response :=
  {| StatusCode := 500; Status := "500 Internal Server Error";
     Body := inr ""%string |}.
End Examples.

(** ** The git repository controller (package repository)

    The go-git library and the git command are reached through the
    interfaces of the package; here they are records of operations over a
    world [W], which also holds what was printed. *)
Module Repository.

Inductive gitError :=
| ErrGit (cause : string)         (* an error of go-git, as it is *)
| ErrAnalyze (cause : gitError)   (* "failed to analyze git repo: %w" *)
| ErrCheckClean (cause : gitError). (* "failed to check if repo is clean: %w" *)

Record gitStatusInterface := { status : string }.

Definition IsClean (gs : gitStatusInterface) : bool :=
  Nat.eqb (String.length (status gs)) 0.

Record gitWorktreeInterface := {
  Status : gitError + gitStatusInterface;
  GetRoot : string
}.

(** [oktetoGitWorktree] over a work tree whose file system has this root. *)
Definition oktetoGitWorktree (root : string) : gitWorktreeInterface :=
  {| Status := inr {| status := "" |}; GetRoot := root |}.

(** [Head] gives the reference by the text of its hash,
    [head.Hash().String()]. *)
Record gitRepositoryInterface (W : Type) := {
  Worktree : W -> W * (gitError + gitWorktreeInterface);
  Head : W -> W * (gitError + string)
}.
Arguments Worktree {W} _ _.
Arguments Head {W} _ _.

Record repositoryGetterInterface (W : Type) := {
  get : string -> W -> W * (gitError + gitRepositoryInterface W)
}.
Arguments get {W} _ _ _.

(** What the package asks of the host: the output and the error of
    [git status --porcelain -z] run in a directory, and [fmt.Println] of one
    operand, given by its text. *)
Record Host (W : Type) := {
  gitStatusPorcelain : string -> W -> W * (string * option string);
  Println : string -> W -> W
}.
Arguments gitStatusPorcelain {W} _ _ _.
Arguments Println {W} _ _ _.

Record gitRepoController (W : Type) := {
  path : string;
  repoGetter : repositoryGetterInterface W
}.
Arguments path {W} _.
Arguments repoGetter {W} _.

(** How [fmt.Println] shows a [gitStatusInterface]: its one field in braces. *)
Definition showStatus (gs : gitStatusInterface) : string :=
  "{" +:+ status gs +:+ "}".

Definition getGitStatus {W} (host : Host W) (wt : gitWorktreeInterface)
  : W -> W * (gitStatusInterface * option gitError) :=
  fun w =>
    let '(w1, (out, err)) := gitStatusPorcelain host (GetRoot wt) w in
    match err with
    | Some _ => (w1, ({| status := out |}, None))
    | None => (w1, ({| status := out |}, None))
    end.

(** With an error the boolean of the source is false; the sum keeps the error
    only. *)
Definition isClean {W} (host : Host W) (r : gitRepoController W)
  : W -> W * (gitError + bool) :=
  fun w =>
    match get (repoGetter r) (path r) w with
    | (w1, inl err) => (w1, inl (ErrAnalyze err))
    | (w1, inr repo) =>
        match Worktree repo w1 with
        | (w2, inl err) => (w2, inl (ErrAnalyze err))
        | (w2, inr worktree) =>
            match getGitStatus host worktree w2 with
            | (w3, (_, Some err)) => (w3, inl (ErrAnalyze err))
            | (w3, (st, None)) =>
                (Println host (showStatus st) w3, inr (IsClean st))
            end
        end
    end.

Definition getSHA {W} (host : Host W) (r : gitRepoController W)
  : W -> W * (gitError + string) :=
  fun w =>
    match isClean host r w with
    | (w1, inl err) => (w1, inl (ErrCheckClean err))
    | (w1, inr clean) =>
        if negb clean then (w1, inr ""%string)
        else
          match get (repoGetter r) (path r) w1 with
          | (w2, inl err) => (w2, inl (ErrAnalyze err))
          | (w2, inr repo) =>
              match Head repo w2 with
              | (w3, inl err) => (w3, inl (ErrAnalyze err))
              | (w3, inr hash) => (w3, inr hash)
              end
          end
    end.

(** A host for runs: the world is the list of printed lines, and the git
    command answers with a fixed output and error. *)
Definition fixedHost (out : string) (err : option string) : Host (list string) :=
  {| gitStatusPorcelain := fun _ w => (w, (out, err));
     Println := fun line w => w ++ [line] |}.

(** A repository at [root] whose head has the hash [hash]. *)
Definition fixedRepo (root hash : string) : gitRepositoryInterface (list string) :=
  {| Worktree := fun w => (w, inr (oktetoGitWorktree root));
     Head := fun w => (w, inr hash) |}.

Definition fixedController (root hash : string) : gitRepoController (list string) :=
  {| path := root;
     repoGetter := {| get := fun _ w => (w, inr (fixedRepo root hash)) |} |}.

End Repository.

(** ** The timers of package benchmark *)
Module Benchmark.

Record span := { start : Time; end_ : Time }.

(** The zero value of [time.Time], which a span has for its end until the
    timer is stopped. *)
Definition zeroTime : Time := 0.

(** The package-level map, and what was printed. *)
Record state := {
  timers : gmap string span;
  stdout : list string
}.

Definition newline : string := String "010"%char EmptyString.

Definition StartTimer (name : string) (now : Time) (st : state) : state :=
  {| timers := <[name := {| start := now; end_ := zeroTime |}]> (timers st);
     stdout := stdout st |}.

Definition StopTimer (name : string) (now : Time) (st : state) : state :=
  match timers st !! name with
  | None =>
      {| timers := timers st;
         stdout := stdout st ++ ["Timer " +:+ name +:+ " doesn't exist" +:+ newline] |}
  | Some s =>
      {| timers := <[name := {| start := start s; end_ := now |}]> (timers st);
         stdout := stdout st |}
  end.

(** A call to one of the two, with the instant [time.Now] gave it. *)
Inductive timerCall :=
| Start (name : string) (now : Time)
| Stop (name : string) (now : Time).

Definition callName (c : timerCall) : string :=
  match c with Start name _ => name | Stop name _ => name end.

Definition runCall (st : state) (c : timerCall) : state :=
  match c with
  | Start name now => StartTimer name now st
  | Stop name now => StopTimer name now st
  end.

Definition runCalls (calls : list timerCall) (st : state) : state :=
  foldl runCall st calls.

End Benchmark.

(** ** The timers behind a lock, with the sorted table

    The later version of the package guards the map with a mutex and prints
    the table in the order of the names.  The mutex is a flag: locking a
    locked mutex never returns and unlocking an unlocked one is a fatal
    error, and both are [None] here. *)
Module BenchmarkLocked.
Import Benchmark.

Record lstate := {
  inner : state;
  locked : bool
}.

Definition Lock (st : lstate) : option lstate :=
  if locked st then None else Some {| inner := inner st; locked := true |}.

Definition Unlock (st : lstate) : option lstate :=
  if locked st then Some {| inner := inner st; locked := false |} else None.

Definition onInner (f : state -> state) (st : lstate) : lstate :=
  {| inner := f (inner st); locked := locked st |}.

Definition print (text : string) (st : state) : state :=
  {| timers := timers st; stdout := stdout st ++ [text] |}.

(** [%-Ns] on a string of one-byte characters. *)
Definition padRight (width : nat) (text : string) : string :=
  text +:+ string_of_list_ascii (repeat " "%char (width - String.length text)).

(** [fmt.Printf("%-10s %-20s\n", "Name", "Duration")] *)
Definition header : string :=
  padRight 10 "Name" +:+ " " +:+ padRight 20 "Duration" +:+ newline.

(** [timers[name]]: the zero span for a name that is not in the map. *)
Definition timerOf (st : state) (name : string) : span :=
  default {| start := zeroTime; end_ := zeroTime |} (timers st !! name).

Section Printing.
(** The text [fmt.Printf("%-10s %-20v\n", name, end.Sub(start))] prints. *)
Variable showTimer : string -> span -> string.

(** The lines of the table for these names, in this order. *)
Definition tableLines (st : state) (names : list string) : list string :=
  (fun name => showTimer name (timerOf st name)) <$> names.

Definition StartTimer (name : string) (now : Time) (st : lstate) : option lstate :=
  st1 ← Lock st;
  Unlock (onInner (fun s =>
            {| timers := <[name := {| start := now; end_ := zeroTime |}]> (timers s);
               stdout := stdout s |}) st1).

(** [keys] is the order in which the range over the map yields the names;
    [sort.Strings] puts them in ascending order. *)
Definition PrintTimers (keys : list string) (st : lstate) : option lstate :=
  st1 ← Lock st;
  let sorted := merge_sort String.le keys in
  let st2 := onInner (print header) st1 in
  let st3 :=
    foldl (fun acc name =>
             onInner (fun s => print (showTimer name (timerOf s name)) s) acc)
          st2 sorted in
  Unlock st3.

Definition StopTimer (keys : list string) (name : string) (now : Time)
    (st : lstate) : option lstate :=
  st1 ← Lock st;
  match timers (inner st1) !! name with
  | None =>
      Unlock (onInner (print ("Timer " +:+ name +:+ " doesn't exist" +:+ newline)) st1)
  | Some s =>
      st2 ← Unlock (onInner (fun i =>
                      {| timers := <[name := {| start := start s; end_ := now |}]> (timers i);
                         stdout := stdout i |}) st1);
      PrintTimers keys st2
  end.
End Printing.

End BenchmarkLocked.

(** ** Vocabulary of the statements *)

(** The codec gives this sequence back: whatever bytes encode it decode to
    it.  encoding/json does so for some sequences and not for others (it
    writes a key that is not UTF-8 with U+FFFD in it, and a time in whole
    seconds), so this is asked of one sequence at a time. *)
Definition decodesBack {TokenRequest} (json : JSON TokenRequest)
    (store : list (storeRegister TokenRequest)) : Prop :=
  forall b, MarshalIndentStore json store = Some b ->
            UnmarshalStore json b = Some store.

(** The token has an encoding, and it decodes to the token. *)
Definition tokenDecodesBack {TokenRequest} (json : JSON TokenRequest)
    (token : TokenRequest) : Prop :=
  exists tokenString,
    MarshalIndentToken json token = Some tokenString
    /\ UnmarshalToken json tokenString = Some token.

Definition keyOf {TokenRequest} (r : storeRegister TokenRequest) : string * string :=
  (ContextName r, Namespace r).

(** At most one entry per key. *)
Definition uniqueKeys {TokenRequest} (store : list (storeRegister TokenRequest)) : Prop :=
  NoDup (keyOf <$> store).

(** The number of entries with the key. *)
Definition countKey {TokenRequest} (contextName namespace : string)
    (store : list (storeRegister TokenRequest)) : nat :=
  length (List.filter (sameKey contextName namespace) store).

(** The entries with another key, in order. *)
Definition otherKeys {TokenRequest} (contextName namespace : string)
    (store : list (storeRegister TokenRequest)) : list (storeRegister TokenRequest) :=
  List.filter (fun r => negb (sameKey contextName namespace r)) store.

(** The first entry with the key, the one the loop of [Get] stops at. *)
Definition firstWithKey {TokenRequest} (contextName namespace : string)
    (store : list (storeRegister TokenRequest)) : option (storeRegister TokenRequest) :=
  List.find (sameKey contextName namespace) store.

(** What the loop of [setWithErr] does to one entry. *)
Definition retoken {TokenRequest} (contextName namespace : string) (token : TokenRequest)
    (r : storeRegister TokenRequest) : storeRegister TokenRequest :=
  if sameKey contextName namespace r then withToken r token else r.

(** A byte store that hands back what was last written to it. *)
Definition readsBackWrites {S} (X : stringStore S) : Prop :=
  forall value st st', ssSet X value st = (st', Ok tt) -> ssGet X st' = (st', Ok value).

(** A file that was written exists and reads back as it was written. *)
Record OSLaws {W} (os : OS W) : Prop := {
  stat_after_write : forall name value w w1,
    WriteFile os name value w = (w1, None) -> Stat os name w1 = None;
  read_after_write : forall name value w w1,
    WriteFile os name value w = (w1, None) -> ReadFile os name w1 = inr value
}.

(** The store holds an entry for the key with this token. *)
Definition holdsToken {TokenRequest} (contextName namespace : string)
    (token : TokenRequest) (store : list (storeRegister TokenRequest)) : Prop :=
  exists r, r ∈ store /\ keyOf r = (contextName, namespace) /\ Token r = token.

(** The bytes a write of this key and token would produce from the state
    [st] decode to the sequence that the write encodes. *)
Definition writeDecodesBack {TokenRequest S} (json : JSON TokenRequest)
    (c : KubeTokenCache S) (contextName namespace : string) (token : TokenRequest)
    (st : S) : Prop :=
  forall st1 store,
    read json c st = (st1, Ok store) ->
    decodesBack json (upsert contextName namespace token store).

(** The entry a write of a key and a token stands for. *)
Definition writeEntry {TokenRequest} (w : string * string * TokenRequest)
  : storeRegister TokenRequest :=
  {| ContextName := fst (fst w); Namespace := snd (fst w); Token := snd w |}.

(** A run of calls to [setWithErr], one after the other, up to the first
    that fails. *)
Fixpoint setAll {TokenRequest S} (json : JSON TokenRequest) (c : KubeTokenCache S)
    (writes : list (string * string * TokenRequest)) : M S unit :=
  match writes with
  | [] => ret tt
  | w :: rest =>
      do _ <- setWithErr json c (fst (fst w)) (snd (fst w)) (snd w);
      setAll json c rest
  end.

(** * Facts *)

Section CacheFacts.
Context {TokenRequest : Type}.
Variable ExpirationTimestamp : TokenRequest -> Time.
Variable json : JSON TokenRequest.

Local Abbreviation register := (storeRegister TokenRequest).

Implicit Types (store pre mid post rest : list register) (r : register).
Implicit Types (token : TokenRequest).
Implicit Types (ctx ns : string).

Lemma sameKey_true ctx ns r :
  sameKey ctx ns r = true <-> keyOf r = (ctx, ns).
Proof.
  unfold sameKey, keyOf. rewrite andb_true_iff, !String.eqb_eq.
  split; [intros [-> ->]; reflexivity | intros [= -> ->]; auto].
Qed.

Lemma sameKey_withToken ctx ns r token :
  sameKey ctx ns (withToken r token) = sameKey ctx ns r.
Proof. reflexivity. Qed.

Lemma sameKey_retoken ctx ns token r :
  sameKey ctx ns (retoken ctx ns token r) = sameKey ctx ns r.
Proof. unfold retoken. destruct (sameKey ctx ns r) eqn:E; auto. Qed.

Lemma keyOf_retoken ctx ns token r : keyOf (retoken ctx ns token r) = keyOf r.
Proof. unfold retoken. destruct (sameKey ctx ns r); reflexivity. Qed.

(** The loop, run from index [length done] on, rewrites the entries it has
    not yet seen and remembers whether one had the key. *)
Lemma setLoop_from ctx ns token todo : forall done existed,
  foldl (setLoopBody ctx ns token) (done ++ todo, existed)
        (seq (length done) (length todo))
  = (done ++ (retoken ctx ns token <$> todo),
     existed || existsb (sameKey ctx ns) todo).
Proof.
  induction todo as [|r rest IH]; intros done existed; simpl.
  - by rewrite orb_false_r.
  - rewrite list_lookup_middle by reflexivity.
    assert (Hr : retoken ctx ns token r
                 = if sameKey ctx ns r then withToken r token else r)
      by reflexivity.
    rewrite Hr. destruct (sameKey ctx ns r) eqn:E.
    + rewrite insert_app_r_alt, Nat.sub_diag by lia. simpl.
      specialize (IH (done ++ [withToken r token]) true).
      rewrite length_app, Nat.add_1_r, <- !app_assoc in IH. simpl in IH.
      rewrite IH. by rewrite orb_true_r.
    + specialize (IH (done ++ [r]) existed).
      rewrite length_app, Nat.add_1_r, <- !app_assoc in IH. simpl in IH.
      by rewrite IH.
Qed.

Lemma setLoop_spec ctx ns token store :
  setLoop ctx ns token store
  = (retoken ctx ns token <$> store, existsb (sameKey ctx ns) store).
Proof. apply (setLoop_from ctx ns token store [] false). Qed.

Lemma upsert_spec ctx ns token store :
  upsert ctx ns token store
  = if existsb (sameKey ctx ns) store
    then retoken ctx ns token <$> store
    else store ++ [ {| ContextName := ctx; Namespace := ns; Token := token |} ].
Proof.
  unfold upsert. rewrite setLoop_spec.
  destruct (existsb (sameKey ctx ns) store) eqn:E; simpl; [reflexivity|].
  f_equal. rewrite <- (list_fmap_id store) at 2. apply list_fmap_ext.
  intros i r Hr. unfold retoken.
  destruct (sameKey ctx ns r) eqn:Er; [|reflexivity].
  assert (existsb (sameKey ctx ns) store = true); [|congruence].
  apply existsb_exists. exists r. split; [|done].
  apply list_elem_of_In. eapply list_elem_of_lookup_2; eauto.
Qed.
Lemma countKey_retoken ctx ns token store :
  countKey ctx ns (retoken ctx ns token <$> store) = countKey ctx ns store.
Proof.
  unfold countKey. induction store as [|r rest IH]; [reflexivity|].
  rewrite fmap_cons. simpl. rewrite sameKey_retoken.
  destruct (sameKey ctx ns r); simpl; by rewrite IH.
Qed.

Lemma countKey_app ctx ns store1 store2 :
  countKey ctx ns (store1 ++ store2)
  = (countKey ctx ns store1 + countKey ctx ns store2)%nat.
Proof. unfold countKey. by rewrite List.filter_app, length_app. Qed.

Lemma countKey_zero ctx ns store :
  existsb (sameKey ctx ns) store = false <-> countKey ctx ns store = 0%nat.
Proof.
  unfold countKey. induction store as [|r rest IH]; simpl; [done|].
  destruct (sameKey ctx ns r); simpl; [split; discriminate | exact IH].
Qed.

Lemma countKey_absent ctx ns store :
  (ctx, ns) ∉ keyOf <$> store -> countKey ctx ns store = 0%nat.
Proof.
  intros Hnot. apply countKey_zero. apply not_true_is_false. intros Hex.
  apply existsb_exists in Hex as (r & Hin & Hk). apply Hnot.
  apply sameKey_true in Hk. rewrite <- Hk.
  apply list_elem_of_fmap_2. by apply list_elem_of_In.
Qed.

Lemma uniqueKeys_countKey ctx ns store :
  uniqueKeys store -> (countKey ctx ns store <= 1)%nat.
Proof.
  unfold uniqueKeys. induction store as [|r rest IH]; [unfold countKey; simpl; lia|].
  rewrite fmap_cons. intros Hnd. apply NoDup_cons in Hnd as [Hnot Hnd].
  specialize (IH Hnd). unfold countKey in *. simpl.
  destruct (sameKey ctx ns r) eqn:E; simpl; [|exact IH].
  apply sameKey_true in E. rewrite E in Hnot.
  apply countKey_absent in Hnot. unfold countKey in Hnot. lia.
Qed.

Lemma uniqueKeys_retoken ctx ns token store :
  uniqueKeys store -> uniqueKeys (retoken ctx ns token <$> store).
Proof.
  unfold uniqueKeys. rewrite <- list_fmap_compose.
  rewrite (list_fmap_ext (keyOf ∘ retoken ctx ns token) keyOf store); [done|].
  intros i r _. apply keyOf_retoken.
Qed.

(** With one entry per key, rewriting every entry with the key is an update
    at the position of the one entry that has it. *)
Lemma retoken_insert ctx ns token store i r :
  uniqueKeys store -> store !! i = Some r -> sameKey ctx ns r = true ->
  retoken ctx ns token <$> store = <[i := withToken r token]> store.
Proof.
  intros Hnd Hi Hk. apply list_eq. intros j. rewrite list_lookup_fmap.
  destruct (decide (i = j)) as [<-|Hne].
  - rewrite list_lookup_insert_eq by (eapply lookup_lt_Some; eauto).
    rewrite Hi. simpl. unfold retoken. by rewrite Hk.
  - rewrite list_lookup_insert_ne by done.
    destruct (store !! j) as [r'|] eqn:Hj; simpl; [|done].
    f_equal. unfold retoken. destruct (sameKey ctx ns r') eqn:Hk'; [|done].
    exfalso. apply Hne. apply sameKey_true in Hk, Hk'.
    eapply (NoDup_lookup (keyOf <$> store) i j (ctx, ns)); [exact Hnd| |].
    + by rewrite list_lookup_fmap, Hi; simpl; rewrite Hk.
    + by rewrite list_lookup_fmap, Hj; simpl; rewrite Hk'.
Qed.

Lemma otherKeys_retoken ctx ns token store :
  otherKeys ctx ns (retoken ctx ns token <$> store) = otherKeys ctx ns store.
Proof.
  unfold otherKeys. induction store as [|r rest IH]; [reflexivity|].
  rewrite fmap_cons. simpl. rewrite sameKey_retoken.
  destruct (sameKey ctx ns r) eqn:E; simpl; rewrite IH; [done|].
  unfold retoken. by rewrite E.
Qed.

Lemma retoken_token ctx ns token store r :
  r ∈ retoken ctx ns token <$> store -> sameKey ctx ns r = true ->
  Token r = token.
Proof.
  intros Hin Hk. apply list_elem_of_fmap in Hin as (r0 & -> & _).
  rewrite sameKey_retoken in Hk. unfold retoken. by rewrite Hk.
Qed.

Lemma retoken_idem ctx ns token store :
  retoken ctx ns token <$> (retoken ctx ns token <$> store)
  = retoken ctx ns token <$> store.
Proof.
  rewrite <- list_fmap_compose. apply list_fmap_ext.
  intros i r _. simpl. unfold retoken at 1. rewrite sameKey_retoken.
  unfold retoken. destruct (sameKey ctx ns r); reflexivity.
Qed.

Lemma existsb_retoken ctx ns token store :
  existsb (sameKey ctx ns) (retoken ctx ns token <$> store)
  = existsb (sameKey ctx ns) store.
Proof.
  induction store as [|r rest IH]; [reflexivity|].
  rewrite fmap_cons. simpl. by rewrite sameKey_retoken, IH.
Qed.

(** Writing the same key and token again changes nothing. *)
Lemma upsert_idem ctx ns token store :
  upsert ctx ns token (upsert ctx ns token store) = upsert ctx ns token store.
Proof.
  rewrite (upsert_spec ctx ns token store).
  destruct (existsb (sameKey ctx ns) store) eqn:E.
  - rewrite upsert_spec, existsb_retoken, E. apply retoken_idem.
  - rewrite upsert_spec, existsb_app. simpl.
    unfold sameKey at 2. simpl. rewrite !String.eqb_refl, orb_true_r. simpl.
    rewrite fmap_app. simpl. f_equal.
    + rewrite <- (list_fmap_id store) at 2. apply list_fmap_ext.
      intros i r Hr. simpl. unfold retoken.
      destruct (sameKey ctx ns r) eqn:Er; [|done].
      assert (existsb (sameKey ctx ns) store = true); [|congruence].
      apply existsb_exists. exists r. split; [|done].
      apply list_elem_of_In. eapply list_elem_of_lookup_2; eauto.
    + unfold retoken, sameKey. simpl. by rewrite !String.eqb_refl.
Qed.

Lemma upsert_uniqueKeys ctx ns token store :
  uniqueKeys store -> uniqueKeys (upsert ctx ns token store).
Proof.
  intros Hnd. rewrite upsert_spec.
  destruct (existsb (sameKey ctx ns) store) eqn:E.
  - by apply uniqueKeys_retoken.
  - unfold uniqueKeys. rewrite fmap_app. simpl.
    apply NoDup_app. split; [exact Hnd|]. split; [|apply NoDup_singleton].
    intros k Hk Hk'. apply list_elem_of_singleton in Hk'. subst k.
    apply list_elem_of_fmap in Hk as (r & Hr & Hin).
    assert (existsb (sameKey ctx ns) store = true); [|congruence].
    apply existsb_exists. exists r. split; [by apply list_elem_of_In|].
    by apply sameKey_true.
Qed.
(** The loop of [Get] looks at the first entry with the key only. *)
Lemma getLoop_first ctx ns now store :
  getLoop ExpirationTimestamp json ctx ns now store
  = match firstWithKey ctx ns store with
    | Some r => getLoop ExpirationTimestamp json ctx ns now [r]
    | None => ""%string
    end.
Proof.
  unfold firstWithKey. induction store as [|r rest IH]; [reflexivity|].
  simpl. destruct (sameKey ctx ns r) eqn:E; [by rewrite E | exact IH].
Qed.

Lemma firstWithKey_sameKey ctx ns store r :
  firstWithKey ctx ns store = Some r -> sameKey ctx ns r = true.
Proof. intros H. by apply List.find_some in H as [_ ?]. Qed.

Lemma firstWithKey_elem ctx ns store r :
  firstWithKey ctx ns store = Some r -> r ∈ store.
Proof. intros H. apply List.find_some in H as [? _]. by apply list_elem_of_In. Qed.

Lemma firstWithKey_skip ctx ns pre rest :
  (forall x, x ∈ pre -> sameKey ctx ns x = false) ->
  firstWithKey ctx ns (pre ++ rest) = firstWithKey ctx ns rest.
Proof.
  unfold firstWithKey. induction pre as [|x pre IH]; intros Hpre; [reflexivity|].
  simpl. rewrite (Hpre x) by apply list_elem_of_here.
  apply IH. intros y Hy. apply Hpre. by apply list_elem_of_further.
Qed.

Lemma getLoop_single ctx ns now r :
  sameKey ctx ns r = true ->
  getLoop ExpirationTimestamp json ctx ns now [r]
  = if After (ExpirationTimestamp (Token r)) now
    then default ""%string (MarshalIndentToken json (Token r))
    else ""%string.
Proof.
  intros Hk. simpl. rewrite Hk.
  destruct (After _ now); [|reflexivity].
  by destruct (MarshalIndentToken json (Token r)).
Qed.

(** After a write the first entry with the key carries the written token. *)
Lemma firstWithKey_upsert ctx ns token store :
  exists r, firstWithKey ctx ns (upsert ctx ns token store) = Some r
            /\ Token r = token.
Proof.
  rewrite upsert_spec. destruct (existsb (sameKey ctx ns) store) eqn:E.
  - destruct (firstWithKey ctx ns (retoken ctx ns token <$> store)) as [r|] eqn:F.
    + exists r. split; [reflexivity|].
      eapply retoken_token; [eapply firstWithKey_elem | eapply firstWithKey_sameKey]; eauto.
    + exfalso. rewrite <- (existsb_retoken ctx ns token) in E.
      apply existsb_exists in E as (r & Hin & Hk).
      eapply List.find_none in F; [|exact Hin]. congruence.
  - rewrite firstWithKey_skip.
    + unfold firstWithKey, sameKey. simpl. rewrite !String.eqb_refl. simpl. eauto.
    + intros x Hx. apply not_true_is_false. intros Hk.
      assert (existsb (sameKey ctx ns) store = true); [|congruence].
      apply existsb_exists. exists x. split; [by apply list_elem_of_In|done].
Qed.

Lemma upsert_holdsToken ctx ns token store :
  holdsToken ctx ns token (upsert ctx ns token store).
Proof.
  destruct (firstWithKey_upsert ctx ns token store) as (r & F & Ht).
  exists r. split; [eapply firstWithKey_elem; eauto|].
  split; [apply sameKey_true; eapply firstWithKey_sameKey; eauto | exact Ht].
Qed.
End CacheFacts.

(** Unfolds the monadic plumbing of the cache methods. *)
Ltac run_cache :=
  unfold Get, setWithErr, Set_, read, bind, ret, fail in *; simpl in *.

Section CacheRuns.
Context {TokenRequest : Type}.
Variable ExpirationTimestamp : TokenRequest -> Time.
Variable json : JSON TokenRequest.
Context {S : Type}.

Local Abbreviation register := (storeRegister TokenRequest).

Implicit Types (c : KubeTokenCache S) (X : stringStore S) (st : S).
Implicit Types (store pre mid post : list register) (r : register).
Implicit Types (token : TokenRequest) (ctx ns : string) (now : Time).

Lemma read_decoded c st st1 b store :
  ssGet (StringStore c) st = (st1, Ok b) ->
  UnmarshalStore json b = Some store ->
  read json c st = (st1, Ok store).
Proof. intros Hg Hu. run_cache. by rewrite Hg, Hu. Qed.

Lemma read_undecodable c st st1 b :
  ssGet (StringStore c) st = (st1, Ok b) ->
  UnmarshalStore json b = None ->
  read json c st = (st1, Err ErrDecoding).
Proof. intros Hg Hu. run_cache. by rewrite Hg, Hu. Qed.

(** A successful [read] is a successful [Get] of the byte store, decoded. *)
Lemma read_inv c st st1 store :
  read json c st = (st1, Ok store) ->
  exists b, ssGet (StringStore c) st = (st1, Ok b)
            /\ UnmarshalStore json b = Some store.
Proof.
  run_cache. destruct (ssGet (StringStore c) st) as [s1 [b|e]]; [|discriminate].
  destruct (UnmarshalStore json b) as [store'|] eqn:Hu; [|discriminate].
  intros [= <- <-]. eauto.
Qed.

Lemma Get_decoded c ctx ns now st st1 b store :
  ssGet (StringStore c) st = (st1, Ok b) ->
  UnmarshalStore json b = Some store ->
  Get ExpirationTimestamp json c ctx ns now st
  = (st1, Ok (getLoop ExpirationTimestamp json ctx ns now store)).
Proof. intros Hg Hu. run_cache. by rewrite Hg, Hu. Qed.

(** What a successful [setWithErr] went through. *)
Lemma setWithErr_inv c ctx ns token st st' :
  setWithErr json c ctx ns token st = (st', Ok tt) ->
  exists st1 b store newStore,
    ssGet (StringStore c) st = (st1, Ok b)
    /\ UnmarshalStore json b = Some store
    /\ MarshalIndentStore json (upsert ctx ns token store) = Some newStore
    /\ ssSet (StringStore c) newStore st1 = (st', Ok tt).
Proof.
  run_cache. destruct (ssGet (StringStore c) st) as [s1 [b|e]] eqn:Hg; [|discriminate].
  destruct (UnmarshalStore json b) as [store|] eqn:Hu; [|discriminate].
  destruct (MarshalIndentStore json (upsert ctx ns token store)) as [newStore|] eqn:Hm;
    [|discriminate].
  intros Hs. exists s1, b, store, newStore. auto.
Qed.

(** The state [Get] leaves is the one the byte store's own [Get] leaves. *)
Lemma Get_state c ctx ns now st :
  fst (Get ExpirationTimestamp json c ctx ns now st) = fst (ssGet (StringStore c) st).
Proof.
  run_cache. destruct (ssGet (StringStore c) st) as [s1 [b|e]]; [|reflexivity].
  by destruct (UnmarshalStore json b).
Qed.

(** Over a store that hands back what was written, when the bytes of a
    successful write decode to the sequence it encoded, that sequence is what
    is read afterwards. *)
Lemma setWithErr_read c ctx ns token st st' :
  readsBackWrites (StringStore c) ->
  writeDecodesBack json c ctx ns token st ->
  setWithErr json c ctx ns token st = (st', Ok tt) ->
  exists st1 store,
    read json c st = (st1, Ok store)
    /\ read json c st' = (st', Ok (upsert ctx ns token store)).
Proof.
  intros HX HD Hset.
  apply setWithErr_inv in Hset as (st1 & b & store & newStore & Hg & Hu & Hm & Hs).
  pose proof (read_decoded c st st1 b store Hg Hu) as Hr.
  exists st1, store. split; [exact Hr|].
  apply HX in Hs. eapply read_decoded; [exact Hs|]. by apply (HD st1 store Hr).
Qed.

(** C1, as amended: from a store with at most one entry per key, a successful
    [setWithErr] encodes and hands to the byte store a sequence with exactly
    one entry for the key, carrying the given token; an entry that had the
    key keeps its position and gets the token, otherwise the new entry goes
    to the end; the entries of other keys keep their values and order.  When
    the byte store hands back what was written and the bytes written decode
    to the sequence that was encoded, that sequence is the state read
    afterwards, and a second write of the same key and token succeeds only by
    leaving that state as it is, with its one entry for the key. *)
Theorem setWithErr_upserts c ctx ns token st st1 b store st' :
  ssGet (StringStore c) st = (st1, Ok b) ->
  UnmarshalStore json b = Some store ->
  uniqueKeys store ->
  setWithErr json c ctx ns token st = (st', Ok tt) ->
  exists store' newStore,
    store' = upsert ctx ns token store
    /\ MarshalIndentStore json store' = Some newStore
    /\ ssSet (StringStore c) newStore st1 = (st', Ok tt)
    /\ countKey ctx ns store' = 1%nat
    /\ (forall r, r ∈ store' -> sameKey ctx ns r = true -> Token r = token)
    /\ (forall i r, store !! i = Some r -> sameKey ctx ns r = true ->
          store' = <[i := withToken r token]> store)
    /\ (countKey ctx ns store = 0%nat ->
          store' = store ++ [ {| ContextName := ctx; Namespace := ns;
                                 Token := token |} ])
    /\ otherKeys ctx ns store' = otherKeys ctx ns store
    /\ uniqueKeys store'
    /\ (readsBackWrites (StringStore c) -> decodesBack json store' ->
        read json c st' = (st', Ok store')
        /\ forall st'',
             setWithErr json c ctx ns token st' = (st'', Ok tt) ->
             read json c st'' = (st'', Ok store')
             /\ countKey ctx ns store' = 1%nat).
Proof.
  intros Hg Hu Hnd Hset.
  apply setWithErr_inv in Hset as (s1 & b' & store0 & newStore & Hg' & Hu' & Hm & Hs).
  rewrite Hg in Hg'. injection Hg' as <- <-.
  rewrite Hu in Hu'. injection Hu' as <-.
  assert (Hcount : countKey ctx ns (upsert ctx ns token store) = 1%nat).
  { rewrite upsert_spec. pose proof (uniqueKeys_countKey ctx ns store Hnd) as Hle.
    destruct (existsb (sameKey ctx ns) store) eqn:E.
    - rewrite countKey_retoken.
      destruct (countKey ctx ns store) as [|n] eqn:Hc; [|lia].
      apply countKey_zero in Hc. congruence.
    - apply countKey_zero in E. rewrite countKey_app, E.
      unfold countKey, sameKey. simpl. by rewrite !String.eqb_refl. }
  exists (upsert ctx ns token store), newStore.
  split; [reflexivity|]. split; [exact Hm|]. split; [exact Hs|].
  split; [exact Hcount|]. split; [|split; [|split; [|split; [|split]]]].
  - intros r Hin Hk.
    destruct (upsert_holdsToken ctx ns token store) as (r0 & Hin0 & Hk0 & Ht0).
    rewrite upsert_spec in Hin.
    destruct (existsb (sameKey ctx ns) store) eqn:E.
    + eapply retoken_token; eauto.
    + apply elem_of_app in Hin as [Hin|Hin].
      * assert (existsb (sameKey ctx ns) store = true); [|congruence].
        apply existsb_exists. exists r. split; [by apply list_elem_of_In|done].
      * apply list_elem_of_singleton in Hin. by subst r.
  - intros i r Hi Hk. rewrite upsert_spec.
    assert (existsb (sameKey ctx ns) store = true) as ->.
    { apply existsb_exists. exists r. split; [|done].
      apply list_elem_of_In. eapply list_elem_of_lookup_2; eauto. }
    by apply retoken_insert.
  - intros Hz. apply countKey_zero in Hz. by rewrite upsert_spec, Hz.
  - rewrite upsert_spec. destruct (existsb (sameKey ctx ns) store) eqn:E.
    + apply otherKeys_retoken.
    + unfold otherKeys. rewrite List.filter_app. simpl.
      unfold sameKey at 2. simpl. rewrite !String.eqb_refl. simpl.
      by rewrite app_nil_r.
  - by apply upsert_uniqueKeys.
  - intros HX HD.
    assert (Hr : read json c st' = (st', Ok (upsert ctx ns token store))).
    { eapply read_decoded; [by apply HX in Hs | by apply HD]. }
    split; [exact Hr|]. intros st'' Hset2.
    apply setWithErr_inv in Hset2
      as (s2 & b2 & store2 & newStore2 & Hg2 & Hu2 & Hm2 & Hs2).
    apply read_inv in Hr as (b3 & Hg3 & Hu3).
    rewrite Hg3 in Hg2. injection Hg2 as <- <-.
    rewrite Hu3 in Hu2. injection Hu2 as <-.
    rewrite upsert_idem in Hm2.
    split; [|exact Hcount].
    eapply read_decoded; [by apply HX in Hs2 | by apply HD].
Qed.

(** C2, as amended: for a token that expires strictly after the instant of
    the read, when [setWithErr] over a byte store that hands back what was
    written returns no error, the bytes it wrote decode to the sequence it
    encoded, and the encoding of the token decodes to the token, the [Get]
    that follows returns without error a string that decodes to the token
    that was stored. *)
Theorem Get_after_setWithErr c ctx ns token now st st' :
  readsBackWrites (StringStore c) ->
  writeDecodesBack json c ctx ns token st ->
  tokenDecodesBack json token ->
  now < ExpirationTimestamp token ->
  setWithErr json c ctx ns token st = (st', Ok tt) ->
  exists tokenString,
    Get ExpirationTimestamp json c ctx ns now st' = (st', Ok tokenString)
    /\ UnmarshalToken json tokenString = Some token.
Proof.
  intros HX HD (tokenString & Hm & Hu) Hexp Hset.
  destruct (setWithErr_read c ctx ns token st st' HX HD Hset)
    as (st1 & store & _ & Hr').
  apply read_inv in Hr' as (b & Hg & Hdec).
  rewrite (Get_decoded c ctx ns now st' st' b _ Hg Hdec).
  destruct (firstWithKey_upsert ctx ns token store) as (r & F & Ht).
  rewrite getLoop_first, F, getLoop_single by (eapply firstWithKey_sameKey; eauto).
  rewrite Ht. unfold After. rewrite (proj2 (Z.ltb_lt _ _) Hexp).
  rewrite Hm. simpl. eauto.
Qed.

(** C3: [Get] hands out the token of the entry it finds only when that
    token expires strictly after the current instant; a token that expires
    exactly now counts as expired, and [Get] then returns the empty string
    with no error. *)
Theorem Get_expiration_is_strict c ctx ns now st st1 b store r :
  ssGet (StringStore c) st = (st1, Ok b) ->
  UnmarshalStore json b = Some store ->
  firstWithKey ctx ns store = Some r ->
  (ExpirationTimestamp (Token r) = now ->
     Get ExpirationTimestamp json c ctx ns now st = (st1, Ok ""%string))
  /\ (now < ExpirationTimestamp (Token r) ->
       Get ExpirationTimestamp json c ctx ns now st
       = (st1, Ok (default ""%string (MarshalIndentToken json (Token r)))))
  /\ (forall tokenString,
        Get ExpirationTimestamp json c ctx ns now st = (st1, Ok tokenString) ->
        tokenString <> ""%string ->
        now < ExpirationTimestamp (Token r)
        /\ MarshalIndentToken json (Token r) = Some tokenString).
Proof.
  intros Hg Hu F.
  rewrite (Get_decoded c ctx ns now st st1 b store Hg Hu).
  rewrite getLoop_first, F, getLoop_single by (eapply firstWithKey_sameKey; eauto).
  unfold After. split; [|split].
  - intros ->. by rewrite Z.ltb_irrefl.
  - intros Hlt. by rewrite (proj2 (Z.ltb_lt _ _) Hlt).
  - destruct (now <? ExpirationTimestamp (Token r)) eqn:E;
      intros tokenString Heq Hne; [|congruence].
    split; [by apply Z.ltb_lt|].
    revert Heq. destruct (MarshalIndentToken json (Token r)); simpl; congruence.
Qed.

(** C10: with several entries for one key, [Get] answers from the first one
    in sequence order; when that one is expired the answer is the empty
    string with no error, also when a later entry for the key is still
    valid. *)
Theorem Get_first_entry_decides c ctx ns now st st1 b pre r mid r2 post :
  ssGet (StringStore c) st = (st1, Ok b) ->
  UnmarshalStore json b = Some (pre ++ r :: mid ++ r2 :: post) ->
  (forall x, x ∈ pre -> sameKey ctx ns x = false) ->
  sameKey ctx ns r = true ->
  sameKey ctx ns r2 = true ->
  now < ExpirationTimestamp (Token r2) ->
  Get ExpirationTimestamp json c ctx ns now st
  = (st1, Ok (getLoop ExpirationTimestamp json ctx ns now [r]))
  /\ (ExpirationTimestamp (Token r) <= now ->
       Get ExpirationTimestamp json c ctx ns now st = (st1, Ok ""%string)).
Proof.
  intros Hg Hu Hpre Hk Hk2 Hvalid.
  rewrite (Get_decoded c ctx ns now st st1 b _ Hg Hu).
  rewrite getLoop_first, firstWithKey_skip by exact Hpre.
  unfold firstWithKey. simpl List.find. rewrite Hk. split; [reflexivity|].
  intros Hexp. rewrite getLoop_single by exact Hk.
  unfold After. by rewrite (proj2 (Z.ltb_ge _ _) Hexp).
Qed.
(** C6: when the bytes the store holds do not decode, [Get] and
    [setWithErr] both fail with the decoding error, and the only call they
    make to the byte store is the [Get] that fetched the bytes: nothing is
    written back. *)
Theorem undecodable_store_fails X ctx ns token now st st1 b tr :
  ssGet X st = (st1, Ok b) ->
  UnmarshalStore json b = None ->
  Get ExpirationTimestamp json {| StringStore := X |} ctx ns now st
    = (st1, Err ErrDecoding)
  /\ setWithErr json {| StringStore := X |} ctx ns token st
    = (st1, Err ErrDecoding)
  /\ Get ExpirationTimestamp json {| StringStore := traced X |} ctx ns now (st, tr)
    = ((st1, tr ++ [CallGet]), Err ErrDecoding)
  /\ setWithErr json {| StringStore := traced X |} ctx ns token (st, tr)
    = ((st1, tr ++ [CallGet]), Err ErrDecoding).
Proof.
  intros Hg Hu. run_cache. by rewrite Hg, Hu.
Qed.

(** C7: on every path, errors included, [Get] calls the byte store's [Get]
    once and its [Set] never, so the store is left as its own [Get] leaves
    it, unchanged where that [Get] changes nothing; and when the first entry
    for the key is expired, [Get] answers the empty string and the same
    sequence, with the expired entry in it, is read afterwards. *)
Theorem Get_never_writes X ctx ns now st tr :
  fst (Get ExpirationTimestamp json {| StringStore := traced X |} ctx ns now (st, tr))
    = (fst (ssGet X st), tr ++ [CallGet])
  /\ fst (Get ExpirationTimestamp json {| StringStore := X |} ctx ns now st)
    = fst (ssGet X st)
  /\ (fst (ssGet X st) = st ->
       fst (Get ExpirationTimestamp json {| StringStore := X |} ctx ns now st) = st)
  /\ (forall b store r,
        ssGet X st = (st, Ok b) ->
        UnmarshalStore json b = Some store ->
        firstWithKey ctx ns store = Some r ->
        ExpirationTimestamp (Token r) <= now ->
        Get ExpirationTimestamp json {| StringStore := X |} ctx ns now st
          = (st, Ok ""%string)
        /\ read json {| StringStore := X |} st = (st, Ok store)
        /\ r ∈ store).
Proof.
  split; [|split; [|split]].
  - run_cache. destruct (ssGet X st) as [s1 [b|e]]; [|reflexivity].
    by destruct (UnmarshalStore json b).
  - apply Get_state.
  - intros Hst. by rewrite Get_state.
  - intros b store r Hg Hu F Hexp.
    rewrite (Get_decoded {| StringStore := X |} ctx ns now st st b store Hg Hu).
    rewrite (read_decoded {| StringStore := X |} st st b store Hg Hu).
    rewrite getLoop_first, F, getLoop_single by (eapply firstWithKey_sameKey; eauto).
    unfold After. rewrite (proj2 (Z.ltb_ge _ _) Hexp).
    repeat split. eapply firstWithKey_elem; eauto.
Qed.
End CacheRuns.

Section ClientRuns.
Context {TokenRequest : Type}.
Variable json : JSON TokenRequest.

(** C5: a 401 response makes [GetKubeToken] fail with the not-logged error
    that names the client's context, any other status but 200 with the
    error that carries the status text; either way the cache is left as it
    was. *)
Theorem GetKubeToken_rejects_status {C} (c : KubeTokenClient TokenRequest C)
    (st : C) (resp : Response) :
  httpClient c (url c) = inr resp ->
  (StatusCode resp = 401 ->
     GetKubeToken json c st = (st, Err (ErrNotLogged (contextName c))))
  /\ (StatusCode resp <> 401 -> StatusCode resp <> 200 ->
       GetKubeToken json c st = (st, Err (ErrStatus (Status resp)))).
Proof.
  intros Hresp. unfold GetKubeToken, StatusUnauthorized, StatusOK. rewrite Hresp.
  split.
  - intros ->. reflexivity.
  - intros H401 H200.
    rewrite (proj2 (Z.eqb_neq _ _) H401), (proj2 (Z.eqb_neq _ _) H200).
    reflexivity.
Qed.

(** What [GetKubeToken] does with a 200 response whose body decodes:
    one call to the sink, and the body as it was received. *)
Lemma GetKubeToken_ok {C} (c : KubeTokenClient TokenRequest C) (st : C)
    (resp : Response) (body : bytes) (token : TokenRequest) :
  httpClient c (url c) = inr resp ->
  StatusCode resp = 200 ->
  Body resp = inr body ->
  UnmarshalToken json body = Some token ->
  GetKubeToken json c st
  = (cacheSet (cache c) (contextName c) (namespace c) token st, Ok body).
Proof.
  intros Hresp Hcode Hbody Htok. unfold GetKubeToken, StatusUnauthorized, StatusOK.
  by rewrite Hresp, Hcode, Hbody, Htok.
Qed.

(** C4, as amended: on a 200 response whose body decodes, [GetKubeToken]
    returns the body bytes as received, with no error, after one call to
    the cache's [Set] for its context, namespace and the decoded token; and
    when the write behind that call succeeds, over a byte store that hands
    back what was written, and the bytes written decode to the sequence that
    was encoded, the cache afterwards holds an entry for the key whose token
    is the decoded body. *)
Theorem GetKubeToken_returns_body {S} (kc : KubeTokenCache S)
    (c : KubeTokenClient TokenRequest S) (st : S)
    (resp : Response) (body : bytes) (token : TokenRequest) :
  cache c = KubeTokenCache_cacheSetter json kc ->
  httpClient c (url c) = inr resp ->
  StatusCode resp = 200 ->
  Body resp = inr body ->
  UnmarshalToken json body = Some token ->
  GetKubeToken json c st
    = (Set_ json kc (contextName c) (namespace c) token st, Ok body)
  /\ (readsBackWrites (StringStore kc) ->
       writeDecodesBack json kc (contextName c) (namespace c) token st ->
       forall st', setWithErr json kc (contextName c) (namespace c) token st
                   = (st', Ok tt) ->
       exists store,
         fst (GetKubeToken json c st) = st'
         /\ read json kc st' = (st', Ok store)
         /\ holdsToken (contextName c) (namespace c) token store).
Proof.
  intros Hcache Hresp Hcode Hbody Htok.
  rewrite (GetKubeToken_ok c st resp body token Hresp Hcode Hbody Htok), Hcache.
  split; [reflexivity|]. intros HX HD st' Hset. simpl. unfold Set_. rewrite Hset.
  destruct (setWithErr_read json kc _ _ token st st' HX HD Hset)
    as (st1 & store & _ & Hr').
  exists (upsert (contextName c) (namespace c) token store).
  split; [reflexivity|]. split; [exact Hr' | apply upsert_holdsToken].
Qed.

(** C8: a failed cache write does not fail [GetKubeToken]: [Set] drops
    whatever [setWithErr] returns, and once the 200 response body has been
    read and decoded the result is the body with no error, also when
    [setWithErr] returned an error. *)
Theorem GetKubeToken_ignores_cache_error {S} (kc : KubeTokenCache S)
    (c : KubeTokenClient TokenRequest S) (st : S)
    (resp : Response) (body : bytes) (token : TokenRequest) :
  cache c = KubeTokenCache_cacheSetter json kc ->
  httpClient c (url c) = inr resp ->
  StatusCode resp = 200 ->
  Body resp = inr body ->
  UnmarshalToken json body = Some token ->
  Set_ json kc (contextName c) (namespace c) token st
    = fst (setWithErr json kc (contextName c) (namespace c) token st)
  /\ GetKubeToken json c st
    = (fst (setWithErr json kc (contextName c) (namespace c) token st), Ok body)
  /\ (forall st' e,
        setWithErr json kc (contextName c) (namespace c) token st = (st', Err e) ->
        GetKubeToken json c st = (st', Ok body)).
Proof.
  intros Hcache Hresp Hcode Hbody Htok.
  rewrite (GetKubeToken_ok c st resp body token Hresp Hcode Hbody Htok), Hcache.
  simpl. unfold Set_.
  destruct (setWithErr json kc (contextName c) (namespace c) token st)
    as [st1 [[]|e1]]; (split; [reflexivity|]); (split; [reflexivity|]);
    intros st' e [= <- ?]; reflexivity.
Qed.
End ClientRuns.

Section FileRuns.
Context {TokenRequest : Type}.
Variable ExpirationTimestamp : TokenRequest -> Time.
Variable json : JSON TokenRequest.
Context {W : Type}.
Variable os : OS W.

(** C9, as amended: when the file is not there and can be created, on a
    file system where a written file exists and reads back as written,
    [FileByteStore.Get] writes the empty-sequence text to it and returns that
    text; with that text decoding to the empty sequence, a cache [Get] for
    any key then answers the empty string with no error, and the file
    afterwards exists and holds the empty sequence. *)
Theorem Get_bootstraps_file (s : FileByteStore) (ctx ns : string) (now : Time)
    (w w1 : W) :
  OSLaws os ->
  UnmarshalStore json "[]"%string = Some [] ->
  Stat os (FileName s) w = Some ErrNotExist ->
  WriteFile os (FileName s) "[]"%string w = (w1, None) ->
  FileByteStore_Get os s w = (w1, Ok "[]"%string)
  /\ Get ExpirationTimestamp json
        {| StringStore := FileByteStore_stringStore os s |} ctx ns now w
      = (w1, Ok ""%string)
  /\ Stat os (FileName s) w1 = None
  /\ ReadFile os (FileName s) w1 = inr "[]"%string
  /\ read json {| StringStore := FileByteStore_stringStore os s |} w1
      = (w1, Ok []).
Proof.
  intros HO HJ Hstat Hwrite.
  pose proof (stat_after_write os HO _ _ _ _ Hwrite) as Hstat1.
  pose proof (read_after_write os HO _ _ _ _ Hwrite) as Hread1.
  assert (Hget : FileByteStore_Get os s w = (w1, Ok "[]"%string)).
  { unfold FileByteStore_Get. rewrite Hstat. simpl. by rewrite Hwrite, Hread1. }
  assert (Hget1 : FileByteStore_Get os s w1 = (w1, Ok "[]"%string)).
  { unfold FileByteStore_Get. by rewrite Hstat1, Hread1. }
  repeat split; try done.
  - by rewrite (Get_decoded ExpirationTimestamp json
                  {| StringStore := FileByteStore_stringStore os s |}
                  ctx ns now w w1 "[]"%string [] Hget HJ).
  - eapply read_decoded; [exact Hget1 | exact HJ].
Qed.
End FileRuns.

(** ** The reference codec satisfies the laws *)

Module RefCodecFacts.
Import RefCodec.

Lemma append_cons (x : ascii) (a b : string) :
  String x a +:+ b = String x (a +:+ b).
Proof. reflexivity. Qed.

Lemma append_assoc (a b c : string) : (a +:+ b) +:+ c = a +:+ (b +:+ c).
Proof.
  induction a as [|x a IH]; [reflexivity|]. by rewrite !append_cons, IH.
Qed.

Lemma append_nil_r (a : string) : a +:+ "" = a.
Proof.
  induction a as [|x a IH]; [reflexivity|]. by rewrite append_cons, IH.
Qed.

Lemma length_append (a b : string) :
  String.length (a +:+ b) = (String.length a + String.length b)%nat.
Proof.
  induction a as [|x a IH]; [reflexivity|].
  rewrite append_cons. simpl. by rewrite IH.
Qed.

Lemma expect_append (lit rest : string) : expect lit (lit +:+ rest) = Some rest.
Proof.
  induction lit as [|c lit IH]; [reflexivity|].
  rewrite append_cons. simpl. by rewrite Ascii.eqb_refl.
Qed.

Lemma isSpecial_false (c : ascii) :
  isSpecial c = false ->
  Ascii.eqb c quoteChar = false /\ Ascii.eqb c backslash = false.
Proof. unfold isSpecial. apply orb_false_elim. Qed.

Lemma unescape_escape (s rest : string) :
  unescape (escape s +:+ String quoteChar rest) = Some (s, rest).
Proof.
  induction s as [|c s IH]; [reflexivity|].
  simpl escape. destruct (isSpecial c) eqn:E.
  - change (unescape (String backslash (String c (escape s +:+ String quoteChar rest)))
            = Some (String c s, rest)).
    simpl. rewrite E. fold quoteChar. by rewrite IH.
  - change (unescape (String c (escape s +:+ String quoteChar rest))
            = Some (String c s, rest)).
    apply isSpecial_false in E as [Eq Eb].
    simpl. fold quoteChar backslash. by rewrite Eq, Eb, IH.
Qed.

Lemma readString_quote (s rest : string) :
  readString (quote s +:+ rest) = Some (s, rest).
Proof.
  unfold quote. change (String quoteChar (escape s +:+ String quoteChar "") +:+ rest)
    with (String quoteChar ((escape s +:+ String quoteChar "") +:+ rest)).
  rewrite append_assoc. unfold readString. rewrite Ascii.eqb_refl.
  apply unescape_escape.
Qed.

Lemma readDecimal_decimal (z : Z) : readDecimal (decimal z) = Some z.
Proof.
  unfold readDecimal, decimal. rewrite DecimalString.NilEmpty.isi. simpl.
  by rewrite DecimalZ.of_to.
Qed.

Lemma readToken_encodeToken (t : token) (rest : string) :
  readToken (encodeToken t +:+ rest) = Some (t, rest).
Proof.
  unfold readToken, encodeToken. rewrite !append_assoc.
  rewrite expect_append. cbn [mbind option_bind].
  rewrite readString_quote. cbn [mbind option_bind].
  rewrite expect_append. cbn [mbind option_bind].
  rewrite readString_quote. cbn [mbind option_bind].
  rewrite readDecimal_decimal. cbn [mbind option_bind].
  rewrite expect_append. cbn [mbind option_bind].
  by destruct t.
Qed.

Lemma readEntry_encodeEntry (r : storeRegister token) (rest : string) :
  readEntry (encodeEntry r +:+ rest) = Some (r, rest).
Proof.
  unfold readEntry, encodeEntry. rewrite !append_assoc.
  rewrite expect_append. cbn [mbind option_bind].
  rewrite readString_quote. cbn [mbind option_bind].
  rewrite expect_append. cbn [mbind option_bind].
  rewrite readString_quote. cbn [mbind option_bind].
  rewrite expect_append. cbn [mbind option_bind].
  rewrite readToken_encodeToken. cbn [mbind option_bind].
  rewrite expect_append. cbn [mbind option_bind].
  by destruct r.
Qed.

Lemma readTail_encodeTail (rs : list (storeRegister token)) :
  forall (fuel : nat) (rest : string),
    (length rs < fuel)%nat ->
    readTail fuel (encodeTail rs +:+ rest) = Some (rs, rest).
Proof.
  induction rs as [|r rs IH]; intros fuel rest Hfuel;
    (destruct fuel as [|fuel]; [simpl in Hfuel; lia|]).
  - reflexivity.
  - change (encodeTail (r :: rs) +:+ rest)
      with (String "," ((encodeEntry r +:+ encodeTail rs) +:+ rest)).
    rewrite append_assoc. cbn [readTail].
    change (Ascii.eqb "," "]") with false. change (Ascii.eqb "," ",") with true.
    cbn iota. rewrite readEntry_encodeEntry. cbn [mbind option_bind].
    rewrite IH by (simpl in Hfuel; lia). reflexivity.
Qed.

Lemma length_encodeTail (rs : list (storeRegister token)) :
  (length rs < String.length (encodeTail rs))%nat.
Proof.
  induction rs as [|r rs IH]; [simpl; lia|].
  change (encodeTail (r :: rs)) with (String "," (encodeEntry r +:+ encodeTail rs)).
  simpl String.length. rewrite length_append. simpl length. lia.
Qed.

Lemma encodeEntry_head (r : storeRegister token) (rest : string) :
  exists tl, encodeEntry r +:+ rest = String "{" tl.
Proof. eexists. reflexivity. Qed.

Lemma readStore_encodeStore (rs : list (storeRegister token)) :
  readStore (encodeStore rs) = Some rs.
Proof.
  destruct rs as [|r rs]; [reflexivity|].
  change (encodeStore (r :: rs)) with (String "[" (encodeEntry r +:+ encodeTail rs)).
  pose proof (readEntry_encodeEntry r (encodeTail rs)) as He.
  pose proof (readTail_encodeTail rs (String.length (encodeTail rs)) ""
                (length_encodeTail rs)) as Ht.
  rewrite append_nil_r in Ht.
  destruct (encodeEntry_head r (encodeTail rs)) as [tl Htl].
  rewrite Htl in *. cbn [readStore].
  change (Ascii.eqb "[" "[") with true. change (Ascii.eqb "{" "]") with false.
  cbn iota. rewrite He. cbn [mbind option_bind]. rewrite Ht.
  reflexivity.
Qed.

Lemma decodeToken_encodeToken (t : token) : decodeToken (encodeToken t) = Some t.
Proof.
  unfold decodeToken. rewrite <- (append_nil_r (encodeToken t)).
  rewrite readToken_encodeToken. reflexivity.
Qed.

Lemma store_decodesBack (rs : list (storeRegister token)) : decodesBack json rs.
Proof. intros b [= <-]. apply readStore_encodeStore. Qed.

Lemma token_decodesBack (t : token) : tokenDecodesBack json t.
Proof. exists (encodeToken t). split; [reflexivity|]. apply decodeToken_encodeToken. Qed.

Lemma write_decodesBack {S} (c : KubeTokenCache S) (ctx ns : string) (t : token)
    (st : S) :
  writeDecodesBack json c ctx ns t st.
Proof. intros st1 store _. apply store_decodesBack. Qed.
End RefCodecFacts.

Lemma memStore_readsBackWrites : readsBackWrites memStore.
Proof. intros value st st' [= <-]. reflexivity. Qed.

Lemma memOS_laws : OSLaws memOS.
Proof.
  split; intros name value w w1 [= <-]; simpl; by rewrite lookup_insert_eq.
Qed.

(** The file-backed store over a lawful file system hands back what was
    written. *)
Lemma FileByteStore_readsBackWrites {W} (os : OS W) (s : FileByteStore) :
  OSLaws os -> readsBackWrites (FileByteStore_stringStore os s).
Proof.
  intros HO value st st'. simpl. unfold FileByteStore_Set, FileByteStore_Get.
  destruct (WriteFile os (FileName s) value st) as [w1 [e|]] eqn:Hw; [discriminate|].
  intros [= <-].
  by rewrite (stat_after_write os HO _ _ _ _ Hw), (read_after_write os HO _ _ _ _ Hw).
Qed.

(** * The statements on concrete runs *)

Module Runs.
Import RefCodec RefCodecFacts Examples.

Lemma twoKeys_unique : uniqueKeys twoKeys.
Proof.
  unfold uniqueKeys, twoKeys. simpl.
  apply NoDup_cons. split; [|apply NoDup_singleton].
  intros Hin. apply list_elem_of_singleton in Hin. discriminate.
Qed.

(** Writing tokenB for the first key of a two-key store, twice. *)
Lemma setWithErr_upserts_witness :
  exists store' newStore,
    store' = upsert "ctx1" "ns1" tokenB twoKeys
    /\ MarshalIndentStore json store' = Some newStore
    /\ ssSet (StringStore memCache) newStore (encodeStore twoKeys)
        = (encodeStore [entry "ctx1" "ns1" tokenB; entry "ctx2" "ns1" tokenOld],
           Ok tt)
    /\ countKey "ctx1" "ns1" store' = 1%nat
    /\ (forall r, r ∈ store' -> sameKey "ctx1" "ns1" r = true -> Token r = tokenB)
    /\ (forall i r, twoKeys !! i = Some r -> sameKey "ctx1" "ns1" r = true ->
          store' = <[i := withToken r tokenB]> twoKeys)
    /\ (countKey "ctx1" "ns1" twoKeys = 0%nat ->
          store' = twoKeys ++ [entry "ctx1" "ns1" tokenB])
    /\ otherKeys "ctx1" "ns1" store' = otherKeys "ctx1" "ns1" twoKeys
    /\ uniqueKeys store'
    /\ (readsBackWrites (StringStore memCache) -> decodesBack json store' ->
        read json memCache
          (encodeStore [entry "ctx1" "ns1" tokenB; entry "ctx2" "ns1" tokenOld])
        = (encodeStore [entry "ctx1" "ns1" tokenB; entry "ctx2" "ns1" tokenOld],
           Ok store')
        /\ forall st'',
             setWithErr json memCache "ctx1" "ns1" tokenB
               (encodeStore [entry "ctx1" "ns1" tokenB; entry "ctx2" "ns1" tokenOld])
             = (st'', Ok tt) ->
             read json memCache st'' = (st'', Ok store')
             /\ countKey "ctx1" "ns1" store' = 1%nat).
Proof.
  apply (setWithErr_upserts json memCache "ctx1" "ns1" tokenB
           (encodeStore twoKeys) (encodeStore twoKeys) (encodeStore twoKeys)
           twoKeys
           (encodeStore [entry "ctx1" "ns1" tokenB; entry "ctx2" "ns1" tokenOld])).
  - reflexivity.
  - vm_compute. reflexivity.
  - exact twoKeys_unique.
  - vm_compute. reflexivity.
Defined.

(** C1 as written fails with the string coercion of encoding/json: the
    context below is one byte that is not UTF-8.  The write into the empty
    store succeeds, but the entry that is read back has U+FFFD for its
    context, so no entry has the key that was written; and writing the same
    key and token again appends a second entry, leaving two entries with one
    and the same key. *)
Lemma coerced_key_is_written_twice :
  uniqueKeys ([] : list (storeRegister token))
  /\ UnmarshalStore CoercingCodec.json "[]"%string = Some []
  /\ setWithErr CoercingCodec.json memCache badContext "ns1" tokenA "[]"%string
     = (encodeStore [entry CoercingCodec.replacement "ns1" tokenA], Ok tt)
  /\ read CoercingCodec.json memCache
       (encodeStore [entry CoercingCodec.replacement "ns1" tokenA])
     = (encodeStore [entry CoercingCodec.replacement "ns1" tokenA],
        Ok [entry CoercingCodec.replacement "ns1" tokenA])
  /\ countKey badContext "ns1" [entry CoercingCodec.replacement "ns1" tokenA] = 0%nat
  /\ setWithErr CoercingCodec.json memCache badContext "ns1" tokenA
       (encodeStore [entry CoercingCodec.replacement "ns1" tokenA])
     = (encodeStore [entry CoercingCodec.replacement "ns1" tokenA;
                     entry CoercingCodec.replacement "ns1" tokenA], Ok tt)
  /\ read CoercingCodec.json memCache
       (encodeStore [entry CoercingCodec.replacement "ns1" tokenA;
                     entry CoercingCodec.replacement "ns1" tokenA])
     = (encodeStore [entry CoercingCodec.replacement "ns1" tokenA;
                     entry CoercingCodec.replacement "ns1" tokenA],
        Ok [entry CoercingCodec.replacement "ns1" tokenA;
            entry CoercingCodec.replacement "ns1" tokenA])
  /\ ~ uniqueKeys [entry CoercingCodec.replacement "ns1" tokenA;
                   entry CoercingCodec.replacement "ns1" tokenA].
Proof.
  split; [apply NoDup_nil_2|]. split; [reflexivity|].
  split; [vm_compute; reflexivity|]. split; [vm_compute; reflexivity|].
  split; [reflexivity|]. split; [vm_compute; reflexivity|].
  split; [vm_compute; reflexivity|].
  unfold uniqueKeys. simpl. intros Hnd. apply NoDup_cons in Hnd as [Hnot _].
  apply Hnot. apply list_elem_of_here.
Qed.

(** C2 as written fails: the in-memory store below never fails and the token
    expires after instant 0, but the bytes in the store do not decode, so
    [setWithErr] stores nothing and the [Get] that follows returns the
    decoding error instead of the token. *)
Lemma roundtrip_needs_successful_write :
  0 < expiration tokenA
  /\ setWithErr json memCache "ctx1" "ns1" tokenA garbage = (garbage, Err ErrDecoding)
  /\ Get expiration json memCache "ctx1" "ns1" 0
        (fst (setWithErr json memCache "ctx1" "ns1" tokenA garbage))
      = (garbage, Err ErrDecoding)
  /\ ~ (exists tokenString,
          snd (Get expiration json memCache "ctx1" "ns1" 0
                 (fst (setWithErr json memCache "ctx1" "ns1" tokenA garbage)))
          = Ok tokenString
          /\ UnmarshalToken json tokenString = Some tokenA).
Proof.
  split; [reflexivity|]. split; [reflexivity|]. split; [reflexivity|].
  intros (tokenString & Hget & _). vm_compute in Hget. discriminate.
Qed.

(** Why the amended C2 asks that the encoding of the token decode to the
    token: under the string coercion of encoding/json the write of a valid
    token whose text is not UTF-8 succeeds, over a store that never fails,
    and the [Get] that follows returns a string with no error, but the
    string decodes to another token than the one that was stored. *)
Lemma coerced_token_is_read_back_changed :
  0 < expiration tokenBad
  /\ setWithErr CoercingCodec.json memCache "ctx1" "ns1" tokenBad "[]"%string
     = (encodeStore [entry "ctx1" "ns1" (CoercingCodec.coerceToken tokenBad)], Ok tt)
  /\ Get expiration CoercingCodec.json memCache "ctx1" "ns1" 0
       (encodeStore [entry "ctx1" "ns1" (CoercingCodec.coerceToken tokenBad)])
     = (encodeStore [entry "ctx1" "ns1" (CoercingCodec.coerceToken tokenBad)],
        Ok (encodeToken (CoercingCodec.coerceToken tokenBad)))
  /\ UnmarshalToken CoercingCodec.json
       (encodeToken (CoercingCodec.coerceToken tokenBad))
     = Some (CoercingCodec.coerceToken tokenBad)
  /\ CoercingCodec.coerceToken tokenBad <> tokenBad.
Proof.
  split; [reflexivity|]. split; [vm_compute; reflexivity|].
  split; [vm_compute; reflexivity|]. split; [vm_compute; reflexivity|].
  discriminate.
Qed.

(** Storing tokenA in an empty store and reading it back at instant 0. *)
Lemma Get_after_setWithErr_witness :
  exists tokenString,
    Get expiration json memCache "ctx1" "ns1" 0
      (encodeStore [entry "ctx1" "ns1" tokenA])
    = (encodeStore [entry "ctx1" "ns1" tokenA], Ok tokenString)
    /\ UnmarshalToken json tokenString = Some tokenA.
Proof.
  apply (Get_after_setWithErr expiration json memCache "ctx1" "ns1" tokenA 0
           "[]"%string (encodeStore [entry "ctx1" "ns1" tokenA])).
  - exact memStore_readsBackWrites.
  - apply write_decodesBack.
  - apply token_decodesBack.
  - reflexivity.
  - vm_compute. reflexivity.
Defined.

(** Reading tokenA, which expires at 3600, at the instant 3600 and around it. *)
Lemma Get_expiration_is_strict_witness :
  Get expiration json memCache "ctx1" "ns1" 3600 (encodeStore twoKeys)
    = (encodeStore twoKeys, Ok ""%string)
  /\ Get expiration json memCache "ctx1" "ns1" 3599 (encodeStore twoKeys)
    = (encodeStore twoKeys, Ok (encodeToken tokenA))
  /\ Get expiration json memCache "ctx1" "ns1" 3601 (encodeStore twoKeys)
    = (encodeStore twoKeys, Ok ""%string).
Proof.
  split; [|split].
  - apply (Get_expiration_is_strict expiration json memCache "ctx1" "ns1" 3600
             (encodeStore twoKeys) (encodeStore twoKeys) (encodeStore twoKeys)
             twoKeys (entry "ctx1" "ns1" tokenA));
      [reflexivity | vm_compute; reflexivity | reflexivity | reflexivity].
  - apply (Get_expiration_is_strict expiration json memCache "ctx1" "ns1" 3599
             (encodeStore twoKeys) (encodeStore twoKeys) (encodeStore twoKeys)
             twoKeys (entry "ctx1" "ns1" tokenA));
      [reflexivity | vm_compute; reflexivity | reflexivity | reflexivity].
  - vm_compute. reflexivity.
Defined.

(** C4 as written fails: the endpoint answers 200 with a body that decodes to
    tokenA and [GetKubeToken] returns that body, but the store refuses the
    write, so the cache still holds the empty sequence and no entry for the
    key. *)
Lemma fetched_token_may_stay_uncached :
  httpClient (clientOf readOnlyCache okResponse)
             (url (clientOf readOnlyCache okResponse)) = inr okResponse
  /\ StatusCode okResponse = 200
  /\ UnmarshalToken json (encodeToken tokenA) = Some tokenA
  /\ GetKubeToken json (clientOf readOnlyCache okResponse) "[]"%string
      = ("[]"%string, Ok (encodeToken tokenA))
  /\ read json readOnlyCache "[]"%string = ("[]"%string, Ok [])
  /\ ~ (exists store,
          read json readOnlyCache
               (fst (GetKubeToken json (clientOf readOnlyCache okResponse) "[]"%string))
          = (fst (GetKubeToken json (clientOf readOnlyCache okResponse) "[]"%string),
             Ok store)
          /\ holdsToken "ctx1" "ns1" tokenA store).
Proof.
  split; [reflexivity|]. split; [reflexivity|].
  split; [vm_compute; reflexivity|]. split; [vm_compute; reflexivity|].
  split; [reflexivity|].
  intros (store & Hread & r & Hin & _).
  vm_compute in Hread. injection Hread as <-.
  by apply not_elem_of_nil in Hin.
Qed.

(** Fetching tokenA into an empty in-memory cache. *)
Lemma GetKubeToken_returns_body_witness :
  GetKubeToken json (clientOf memCache okResponse) "[]"%string
    = (Set_ json memCache "ctx1" "ns1" tokenA "[]"%string, Ok (encodeToken tokenA))
  /\ exists store,
       fst (GetKubeToken json (clientOf memCache okResponse) "[]"%string)
       = encodeStore [entry "ctx1" "ns1" tokenA]
       /\ read json memCache (encodeStore [entry "ctx1" "ns1" tokenA])
          = (encodeStore [entry "ctx1" "ns1" tokenA], Ok store)
       /\ holdsToken "ctx1" "ns1" tokenA store.
Proof.
  destruct (GetKubeToken_returns_body json memCache (clientOf memCache okResponse)
              "[]"%string okResponse (encodeToken tokenA) tokenA)
    as [Hret Hheld].
  - reflexivity.
  - reflexivity.
  - reflexivity.
  - reflexivity.
  - vm_compute. reflexivity.
  - split; [exact Hret|].
    apply (Hheld memStore_readsBackWrites
             (write_decodesBack memCache "ctx1" "ns1" tokenA "[]"%string)
             (encodeStore [entry "ctx1" "ns1" tokenA])).
    vm_compute. reflexivity.
Defined.

(** A 401 answer with a cache that holds entries, and a 500 answer with a
    sink that records the calls to [Set]. *)
Lemma GetKubeToken_rejects_status_witness :
  GetKubeToken json (clientOf memCache unauthorized) (encodeStore twoKeys)
    = (encodeStore twoKeys, Err (ErrNotLogged "ctx1"))
  /\ GetKubeToken json (clientWith recordingSink serverError) []
    = ([], Err (ErrStatus "500 Internal Server Error")).
Proof.
  split.
  - apply (GetKubeToken_rejects_status json (clientOf memCache unauthorized)
             (encodeStore twoKeys) unauthorized); reflexivity.
  - apply (GetKubeToken_rejects_status json (clientWith recordingSink serverError)
             [] serverError); [reflexivity | discriminate | discriminate].
Defined.

(** Reading and writing over bytes that are no JSON text. *)
Lemma undecodable_store_fails_witness :
  Get expiration json memCache "ctx1" "ns1" 0 garbage = (garbage, Err ErrDecoding)
  /\ setWithErr json memCache "ctx1" "ns1" tokenA garbage = (garbage, Err ErrDecoding)
  /\ Get expiration json {| StringStore := traced memStore |} "ctx1" "ns1" 0 (garbage, [])
    = ((garbage, [CallGet]), Err ErrDecoding)
  /\ setWithErr json {| StringStore := traced memStore |} "ctx1" "ns1" tokenA (garbage, [])
    = ((garbage, [CallGet]), Err ErrDecoding).
Proof.
  apply (undecodable_store_fails expiration json memStore "ctx1" "ns1" tokenA 0
           garbage garbage garbage []); reflexivity.
Defined.

(** Reading the key of the expired entry of the two-key store. *)
Lemma Get_never_writes_witness :
  Get expiration json memCache "ctx2" "ns1" 0 (encodeStore twoKeys)
    = (encodeStore twoKeys, Ok ""%string)
  /\ read json memCache (encodeStore twoKeys) = (encodeStore twoKeys, Ok twoKeys)
  /\ entry "ctx2" "ns1" tokenOld ∈ twoKeys.
Proof.
  apply (proj2 (proj2 (proj2 (Get_never_writes expiration json memStore
                                "ctx2" "ns1" 0 (encodeStore twoKeys) [])))
           (encodeStore twoKeys) twoKeys (entry "ctx2" "ns1" tokenOld));
    [reflexivity | vm_compute; reflexivity | reflexivity | discriminate].
Defined.

(** Fetching tokenA when the store refuses the write. *)
Lemma GetKubeToken_ignores_cache_error_witness :
  setWithErr json readOnlyCache "ctx1" "ns1" tokenA "[]"%string
    = ("[]"%string, Err (ErrOS ErrPermission))
  /\ GetKubeToken json (clientOf readOnlyCache okResponse) "[]"%string
    = ("[]"%string, Ok (encodeToken tokenA)).
Proof.
  assert (Hset : setWithErr json readOnlyCache "ctx1" "ns1" tokenA "[]"%string
                 = ("[]"%string, Err (ErrOS ErrPermission)))
    by (vm_compute; reflexivity).
  split; [exact Hset|].
  apply (proj2 (proj2 (GetKubeToken_ignores_cache_error json readOnlyCache
                         (clientOf readOnlyCache okResponse) "[]"%string okResponse
                         (encodeToken tokenA) tokenA
                         eq_refl eq_refl eq_refl eq_refl eq_refl))
           "[]"%string (ErrOS ErrPermission) Hset).
Defined.

(** The first read of a cache whose file is not there. *)
Lemma Get_bootstraps_file_witness :
  FileByteStore_Get memOS tokenFile ∅
    = (<["kubetoken.json"%string := "[]"%string]> ∅, Ok "[]"%string)
  /\ Get expiration json fileCache "ctx1" "ns1" 0 ∅
    = (<["kubetoken.json"%string := "[]"%string]> ∅, Ok ""%string)
  /\ Stat memOS "kubetoken.json" (<["kubetoken.json"%string := "[]"%string]> ∅) = None
  /\ ReadFile memOS "kubetoken.json" (<["kubetoken.json"%string := "[]"%string]> ∅)
    = inr "[]"%string
  /\ read json fileCache (<["kubetoken.json"%string := "[]"%string]> ∅)
    = (<["kubetoken.json"%string := "[]"%string]> ∅, Ok []).
Proof.
  apply (Get_bootstraps_file expiration json memOS tokenFile "ctx1" "ns1" 0
           ∅ (<["kubetoken.json"%string := "[]"%string]> ∅)).
  - exact memOS_laws.
  - reflexivity.
  - reflexivity.
  - reflexivity.
Defined.

(** C9 as written fails when the file is not there and cannot be created:
    on the file system that refuses every write, [FileByteStore.Get] returns
    the error of the creation, the cache [Get] returns that error and not the
    empty result, and the file is still not there afterwards. *)
Lemma missing_file_that_cannot_be_created :
  Stat readOnlyOS (FileName tokenFile) ∅ = Some ErrNotExist
  /\ FileByteStore_Get readOnlyOS tokenFile ∅
     = (∅, Err (ErrCreatingFile ErrPermission))
  /\ Get expiration json
       {| StringStore := FileByteStore_stringStore readOnlyOS tokenFile |}
       "ctx1" "ns1" 0 ∅
     = (∅, Err (ErrCreatingFile ErrPermission))
  /\ Get expiration json
       {| StringStore := FileByteStore_stringStore readOnlyOS tokenFile |}
       "ctx1" "ns1" 0 ∅
     <> (∅, Ok ""%string)
  /\ Stat readOnlyOS (FileName tokenFile)
       (fst (Get expiration json
               {| StringStore := FileByteStore_stringStore readOnlyOS tokenFile |}
               "ctx1" "ns1" 0 ∅))
     = Some ErrNotExist.
Proof.
  split; [reflexivity|]. split; [reflexivity|]. split; [reflexivity|].
  split; [discriminate | reflexivity].
Qed.

(** An expired entry in front of a valid one for the same key. *)
Lemma Get_first_entry_decides_witness :
  Get expiration json memCache "ctx1" "ns1" 0 (encodeStore sameKeyTwice)
    = (encodeStore sameKeyTwice,
       Ok (getLoop expiration json "ctx1" "ns1" 0 [entry "ctx1" "ns1" tokenOld]))
  /\ Get expiration json memCache "ctx1" "ns1" 0 (encodeStore sameKeyTwice)
    = (encodeStore sameKeyTwice, Ok ""%string).
Proof.
  destruct (Get_first_entry_decides expiration json memCache "ctx1" "ns1" 0
              (encodeStore sameKeyTwice) (encodeStore sameKeyTwice)
              (encodeStore sameKeyTwice)
              [] (entry "ctx1" "ns1" tokenOld) [] (entry "ctx1" "ns1" tokenA) [])
    as [Hfirst Hmiss].
  - reflexivity.
  - vm_compute. reflexivity.
  - intros x Hx. by apply not_elem_of_nil in Hx.
  - reflexivity.
  - reflexivity.
  - reflexivity.
  - split; [exact Hfirst | apply Hmiss; discriminate].
Defined.
End Runs.

(** * Further facts about the cache *)

Section MoreCacheFacts.
Context {TokenRequest : Type}.
Variable ExpirationTimestamp : TokenRequest -> Time.
Variable json : JSON TokenRequest.

Local Abbreviation register := (storeRegister TokenRequest).

Implicit Types (store pre mid post rest : list register) (r : register).
Implicit Types (token : TokenRequest) (ctx ns : string) (now : Time).

Lemma sameKey_other ctx ns ctx' ns' r :
  (ctx', ns') <> (ctx, ns) -> sameKey ctx' ns' r = true -> sameKey ctx ns r = false.
Proof.
  intros Hne Hk'. apply not_true_is_false. intros Hk.
  apply sameKey_true in Hk, Hk'. congruence.
Qed.

Lemma getLoop_retoken_other ctx ns ctx' ns' token now store :
  (ctx', ns') <> (ctx, ns) ->
  getLoop ExpirationTimestamp json ctx' ns' now (retoken ctx ns token <$> store)
  = getLoop ExpirationTimestamp json ctx' ns' now store.
Proof.
  intros Hne. induction store as [|r rest IH]; [reflexivity|].
  rewrite fmap_cons. simpl.
  assert (Hsame : sameKey ctx' ns' (retoken ctx ns token r) = sameKey ctx' ns' r).
  { unfold retoken. by destruct (sameKey ctx ns r). }
  rewrite Hsame. destruct (sameKey ctx' ns' r) eqn:Hk'; [|exact IH].
  unfold retoken. by rewrite (sameKey_other ctx ns ctx' ns' r Hne Hk').
Qed.

Lemma getLoop_app_other ctx ns ctx' ns' token now store :
  (ctx', ns') <> (ctx, ns) ->
  getLoop ExpirationTimestamp json ctx' ns' now
    (store ++ [ {| ContextName := ctx; Namespace := ns; Token := token |} ])
  = getLoop ExpirationTimestamp json ctx' ns' now store.
Proof.
  intros Hne. induction store as [|r rest IH]; simpl.
  - destruct (sameKey ctx' ns' {| ContextName := ctx; Namespace := ns; Token := token |})
      eqn:Hk; [|reflexivity].
    apply sameKey_true in Hk. unfold keyOf in Hk. simpl in Hk. congruence.
  - destruct (sameKey ctx' ns' r); [reflexivity | exact IH].
Qed.

(** A write for one key does not change what the loop of [Get] finds for
    another. *)
Lemma getLoop_upsert_other ctx ns ctx' ns' token now store :
  (ctx', ns') <> (ctx, ns) ->
  getLoop ExpirationTimestamp json ctx' ns' now (upsert ctx ns token store)
  = getLoop ExpirationTimestamp json ctx' ns' now store.
Proof.
  intros Hne. rewrite upsert_spec. destruct (existsb (sameKey ctx ns) store).
  - by apply getLoop_retoken_other.
  - by apply getLoop_app_other.
Qed.

(** What the loop of [Get] finds for the key that was just written. *)
Lemma getLoop_upsert_same ctx ns token now store :
  getLoop ExpirationTimestamp json ctx ns now (upsert ctx ns token store)
  = if After (ExpirationTimestamp token) now
    then default ""%string (MarshalIndentToken json token)
    else ""%string.
Proof.
  destruct (firstWithKey_upsert ctx ns token store) as (r & F & Ht).
  rewrite getLoop_first, F, getLoop_single by (eapply firstWithKey_sameKey; eauto).
  by rewrite Ht.
Qed.

Lemma retoken_retoken ctx ns tokenA tokenB store :
  retoken ctx ns tokenB <$> (retoken ctx ns tokenA <$> store)
  = retoken ctx ns tokenB <$> store.
Proof.
  rewrite <- list_fmap_compose. apply list_fmap_ext.
  intros i r _. simpl. unfold retoken at 1. rewrite sameKey_retoken.
  unfold retoken. destruct (sameKey ctx ns r); reflexivity.
Qed.

Lemma retoken_absent ctx ns token store :
  existsb (sameKey ctx ns) store = false -> retoken ctx ns token <$> store = store.
Proof.
  intros E. rewrite <- (list_fmap_id store) at 2. apply list_fmap_ext.
  intros i r Hr. simpl. unfold retoken.
  destruct (sameKey ctx ns r) eqn:Er; [|done].
  assert (existsb (sameKey ctx ns) store = true); [|congruence].
  apply existsb_exists. exists r. split; [|done].
  apply list_elem_of_In. eapply list_elem_of_lookup_2; eauto.
Qed.

Lemma upsert_upsert ctx ns tokenA tokenB store :
  upsert ctx ns tokenB (upsert ctx ns tokenA store) = upsert ctx ns tokenB store.
Proof.
  rewrite (upsert_spec ctx ns tokenA store), (upsert_spec ctx ns tokenB store).
  destruct (existsb (sameKey ctx ns) store) eqn:E.
  - rewrite upsert_spec, existsb_retoken, E. apply retoken_retoken.
  - rewrite upsert_spec, existsb_app. simpl.
    unfold sameKey at 2. simpl. rewrite !String.eqb_refl, orb_true_r. simpl.
    rewrite fmap_app, (retoken_absent ctx ns tokenB store E). simpl. f_equal.
    unfold retoken, sameKey. simpl. by rewrite !String.eqb_refl.
Qed.

Lemma length_upsert ctx ns token store :
  length (upsert ctx ns token store)
  = if existsb (sameKey ctx ns) store then length store
    else Datatypes.S (length store).
Proof.
  rewrite upsert_spec. destruct (existsb (sameKey ctx ns) store).
  - by rewrite length_fmap.
  - rewrite length_app. simpl. lia.
Qed.

(** A property of entries that holds of the stored ones and of the written
    one holds of all entries of the sequence [setWithErr] builds. *)
Lemma upsert_Forall (good : register -> Prop) ctx ns token store :
  Forall good store ->
  good {| ContextName := ctx; Namespace := ns; Token := token |} ->
  Forall good (upsert ctx ns token store).
Proof.
  intros Hall Hnew. rewrite upsert_spec.
  destruct (existsb (sameKey ctx ns) store).
  - apply Forall_fmap. eapply Forall_impl; [exact Hall|].
    intros r Hr. simpl. unfold retoken.
    destruct (sameKey ctx ns r) eqn:Hk; [|exact Hr].
    apply sameKey_true in Hk. unfold keyOf in Hk. injection Hk as Hc Hn.
    unfold withToken. by rewrite Hc, Hn.
  - apply Forall_app. split; [exact Hall|]. by apply Forall_singleton.
Qed.

Lemma upsert_token ctx ns token store r :
  r ∈ upsert ctx ns token store -> sameKey ctx ns r = true -> Token r = token.
Proof.
  rewrite upsert_spec. destruct (existsb (sameKey ctx ns) store) eqn:E.
  - intros Hin Hk. eapply retoken_token; eauto.
  - intros Hin Hk. apply elem_of_app in Hin as [Hin|Hin].
    + assert (existsb (sameKey ctx ns) store = true); [|congruence].
      apply existsb_exists. exists r. split; [by apply list_elem_of_In|done].
    + apply list_elem_of_singleton in Hin. by subst r.
Qed.

(** X3: whatever the store holds, also several entries for the key, the
    sequence [setWithErr] builds gives the token to every entry that has the
    key and changes no other; the number of entries stays when the key was
    there and grows by one when it was not. *)
Theorem upsert_rewrites_every_entry ctx ns token store :
  (forall r, r ∈ upsert ctx ns token store -> sameKey ctx ns r = true ->
     Token r = token)
  /\ otherKeys ctx ns (upsert ctx ns token store) = otherKeys ctx ns store
  /\ ((0 < countKey ctx ns store)%nat ->
       length (upsert ctx ns token store) = length store
       /\ countKey ctx ns (upsert ctx ns token store) = countKey ctx ns store
       /\ keyOf <$> upsert ctx ns token store = keyOf <$> store)
  /\ (countKey ctx ns store = 0%nat ->
       upsert ctx ns token store
       = store ++ [ {| ContextName := ctx; Namespace := ns; Token := token |} ]).
Proof.
  rewrite upsert_spec. destruct (existsb (sameKey ctx ns) store) eqn:E.
  - split; [|split; [|split]].
    + intros r Hin Hk. eapply retoken_token; eauto.
    + apply otherKeys_retoken.
    + intros _. rewrite length_fmap, countKey_retoken. repeat split.
      rewrite <- list_fmap_compose. apply list_fmap_ext.
      intros i r _. apply keyOf_retoken.
    + intros Hz. apply countKey_zero in Hz. congruence.
  - split; [|split; [|split]].
    + intros r Hin Hk. apply elem_of_app in Hin as [Hin|Hin].
      * assert (existsb (sameKey ctx ns) store = true); [|congruence].
        apply existsb_exists. exists r. split; [by apply list_elem_of_In|done].
      * apply list_elem_of_singleton in Hin. by subst r.
    + unfold otherKeys. rewrite List.filter_app. simpl.
      unfold sameKey at 2. simpl. rewrite !String.eqb_refl. simpl.
      by rewrite app_nil_r.
    + intros Hpos. apply countKey_zero in E. lia.
    + reflexivity.
Qed.

End MoreCacheFacts.

Section MoreCacheRuns.
Context {TokenRequest : Type}.
Variable ExpirationTimestamp : TokenRequest -> Time.
Variable json : JSON TokenRequest.
Context {S : Type}.

Local Abbreviation register := (storeRegister TokenRequest).

Implicit Types (c : KubeTokenCache S) (X : stringStore S) (st : S).
Implicit Types (store : list register) (r : register).
Implicit Types (token : TokenRequest) (ctx ns : string) (now : Time).

Lemma Get_of_read c ctx ns now st st1 store :
  read json c st = (st1, Ok store) ->
  Get ExpirationTimestamp json c ctx ns now st
  = (st1, Ok (getLoop ExpirationTimestamp json ctx ns now store)).
Proof.
  intros Hr. apply read_inv in Hr as (b & Hg & Hu). by eapply Get_decoded.
Qed.

(** X1: over a byte store that hands back what was written, when the bytes
    of a successful write for one key decode to the sequence it encoded, the
    answer of [Get] for every other key is as it was before the write: same
    context with another namespace, or same namespace with another
    context. *)
Theorem setWithErr_keeps_other_keys c ctx ns ctx' ns' token now st st' :
  readsBackWrites (StringStore c) ->
  writeDecodesBack json c ctx ns token st ->
  (ctx', ns') <> (ctx, ns) ->
  setWithErr json c ctx ns token st = (st', Ok tt) ->
  snd (Get ExpirationTimestamp json c ctx' ns' now st')
  = snd (Get ExpirationTimestamp json c ctx' ns' now st).
Proof.
  intros HX HD Hne Hset.
  destruct (setWithErr_read json c ctx ns token st st' HX HD Hset)
    as (st1 & store & Hr & Hr').
  rewrite (Get_of_read c ctx' ns' now st st1 store Hr).
  rewrite (Get_of_read c ctx' ns' now st' st' _ Hr'). simpl.
  by rewrite getLoop_upsert_other.
Qed.

(** X2: over a byte store that hands back what was written, when the bytes
    of each of two successful writes for one key, one after the other,
    decode to the sequence that write encoded, the store is left as the
    second write alone would have left it: one and the same sequence is read
    back, with the second token. *)
Theorem setWithErr_last_write_wins c ctx ns tokenA tokenB st st1 st2 :
  readsBackWrites (StringStore c) ->
  writeDecodesBack json c ctx ns tokenA st ->
  writeDecodesBack json c ctx ns tokenB st1 ->
  setWithErr json c ctx ns tokenA st = (st1, Ok tt) ->
  setWithErr json c ctx ns tokenB st1 = (st2, Ok tt) ->
  exists st0 store,
    read json c st = (st0, Ok store)
    /\ read json c st2 = (st2, Ok (upsert ctx ns tokenB store))
    /\ holdsToken ctx ns tokenB (upsert ctx ns tokenB store)
    /\ (forall r, r ∈ upsert ctx ns tokenB store -> sameKey ctx ns r = true ->
          Token r = tokenB).
Proof.
  intros HX HDA HDB HA HB.
  destruct (setWithErr_read json c ctx ns tokenA st st1 HX HDA HA)
    as (st0 & store & Hr & Hr1).
  destruct (setWithErr_read json c ctx ns tokenB st1 st2 HX HDB HB)
    as (st1' & store1 & Hr1' & Hr2).
  rewrite Hr1 in Hr1'. injection Hr1' as <- <-.
  rewrite upsert_upsert in Hr2.
  exists st0, store. split; [exact Hr|]. split; [exact Hr2|].
  split; [apply upsert_holdsToken|].
  intros r. apply upsert_token.
Qed.

(** The state a run of writes ends in, for entries of a kind the codec
    gives back. *)
Lemma setAll_read (good : register -> Prop) c
    (writes : list (string * string * TokenRequest)) :
  readsBackWrites (StringStore c) ->
  (forall store, Forall good store -> decodesBack json store) ->
  Forall (fun w => good (writeEntry w)) writes ->
  forall st st0 store st',
    read json c st = (st0, Ok store) ->
    uniqueKeys store ->
    Forall good store ->
    setAll json c writes st = (st', Ok tt) ->
    exists st1 store',
      read json c st' = (st1, Ok store')
      /\ uniqueKeys store'
      /\ Forall good store'
      /\ (length store' <= length store + length writes)%nat.
Proof.
  intros HX HD. induction writes as [|w writes IH]; intros Hw st st0 store st' Hr Hu Hg.
  - intros [= <-]. exists st0, store. simpl. repeat split; try done. lia.
  - apply Forall_cons in Hw as [Hw Hws]. simpl. unfold bind at 1.
    destruct (setWithErr json c (fst (fst w)) (snd (fst w)) (snd w) st)
      as [st2 [[]|e]] eqn:Hset; [|discriminate].
    intros Hrest.
    assert (Hgood : Forall good (upsert (fst (fst w)) (snd (fst w)) (snd w) store)).
    { apply upsert_Forall; [exact Hg | exact Hw]. }
    assert (HDw : writeDecodesBack json c (fst (fst w)) (snd (fst w)) (snd w) st).
    { intros s1 store1 Hr1. rewrite Hr in Hr1. injection Hr1 as <- <-.
      by apply HD. }
    destruct (setWithErr_read json c _ _ _ st st2 HX HDw Hset)
      as (s1 & store1 & Hr1 & Hr2).
    rewrite Hr in Hr1. injection Hr1 as <- <-.
    destruct (IH Hws st2 st2 _ st' Hr2 (upsert_uniqueKeys _ _ _ _ Hu) Hgood Hrest)
      as (st3 & store' & Hr3 & Hu3 & Hg3 & Hlen).
    exists st3, store'. repeat split; try done.
    rewrite length_upsert in Hlen. simpl.
    destruct (existsb _ store); lia.
Qed.

(** X13: the invariant over runs of writes.  Over a byte store that hands
    back what was written, and for entries of a kind whose sequences the
    codec decodes back, a run of successful [setWithErr] calls that starts
    from a state with at most one entry per key ends in a state that is read
    back with at most one entry per key, entries of that kind only, and no
    more entries than there were plus the number of writes. *)
Theorem setAll_keeps_keys_unique (good : register -> Prop) c
    (writes : list (string * string * TokenRequest)) st st0 store st' :
  readsBackWrites (StringStore c) ->
  (forall store, Forall good store -> decodesBack json store) ->
  Forall (fun w => good (writeEntry w)) writes ->
  read json c st = (st0, Ok store) ->
  uniqueKeys store ->
  Forall good store ->
  setAll json c writes st = (st', Ok tt) ->
  exists st1 store',
    read json c st' = (st1, Ok store')
    /\ uniqueKeys store'
    /\ (forall ctx ns, (countKey ctx ns store' <= 1)%nat)
    /\ Forall good store'
    /\ (length store' <= length store + length writes)%nat.
Proof.
  intros HX HD Hw Hr Hu Hg Hrun.
  destruct (setAll_read good c writes HX HD Hw st st0 store st' Hr Hu Hg Hrun)
    as (st1 & store' & Hr' & Hu' & Hg' & Hlen).
  exists st1, store'. repeat split; try done.
  intros ctx ns. by apply uniqueKeys_countKey.
Qed.

(** X4: [setWithErr] calls the byte store's [Get] once and its [Set] at most
    once.  Either it stops after the [Get] and returns an error, or the bytes
    it hands to [Set] encode the upserted sequence of what that [Get]
    returned, and its result is the result of that [Set]. *)
Theorem setWithErr_store_calls X ctx ns token st tr :
  (snd (fst (setWithErr json {| StringStore := traced X |} ctx ns token (st, tr)))
     = tr ++ [CallGet]
   /\ exists e, snd (setWithErr json {| StringStore := traced X |} ctx ns token (st, tr))
                = Err e)
  \/ (exists st1 b store newStore,
        ssGet X st = (st1, Ok b)
        /\ UnmarshalStore json b = Some store
        /\ MarshalIndentStore json (upsert ctx ns token store) = Some newStore
        /\ snd (fst (setWithErr json {| StringStore := traced X |} ctx ns token (st, tr)))
           = tr ++ [CallGet; CallSet newStore]
        /\ fst (fst (setWithErr json {| StringStore := traced X |} ctx ns token (st, tr)))
           = fst (ssSet X newStore st1)
        /\ snd (setWithErr json {| StringStore := traced X |} ctx ns token (st, tr))
           = snd (ssSet X newStore st1)).
Proof.
  run_cache. destruct (ssGet X st) as [st1 [b|e]] eqn:Hg; simpl.
  - destruct (UnmarshalStore json b) as [store|] eqn:Hu; simpl.
    + destruct (MarshalIndentStore json (upsert ctx ns token store)) as [newStore|] eqn:Hm;
        simpl.
      * right. exists st1, b, store, newStore.
        destruct (ssSet X newStore st1) as [st2 res] eqn:Hs. simpl.
        rewrite <- app_assoc. repeat split; done.
      * left. eauto.
    + left. eauto.
  - left. eauto.
Qed.

(** X11: a token that is already expired is stored like any other: over a
    byte store that hands back what was written, when the bytes written
    decode to the sequence that was encoded, its entry is in the store
    afterwards, but the [Get] that follows answers the empty string with no
    error. *)
Theorem expired_token_is_stored_and_missed c ctx ns token now st st' :
  readsBackWrites (StringStore c) ->
  writeDecodesBack json c ctx ns token st ->
  ExpirationTimestamp token <= now ->
  setWithErr json c ctx ns token st = (st', Ok tt) ->
  Get ExpirationTimestamp json c ctx ns now st' = (st', Ok ""%string)
  /\ exists store,
       read json c st' = (st', Ok store) /\ holdsToken ctx ns token store.
Proof.
  intros HX HD Hexp Hset.
  destruct (setWithErr_read json c ctx ns token st st' HX HD Hset)
    as (st1 & store & _ & Hr').
  split.
  - rewrite (Get_of_read c ctx ns now st' st' _ Hr'), getLoop_upsert_same.
    unfold After. by rewrite (proj2 (Z.ltb_ge _ _) Hexp).
  - eexists. split; [exact Hr' | apply upsert_holdsToken].
Qed.

(** A token that is still valid and was just written is what [Get] finds. *)
Lemma Get_after_write c ctx ns token now st st' :
  readsBackWrites (StringStore c) ->
  writeDecodesBack json c ctx ns token st ->
  now < ExpirationTimestamp token ->
  setWithErr json c ctx ns token st = (st', Ok tt) ->
  Get ExpirationTimestamp json c ctx ns now st'
  = (st', Ok (default ""%string (MarshalIndentToken json token))).
Proof.
  intros HX HD Hexp Hset.
  destruct (setWithErr_read json c ctx ns token st st' HX HD Hset)
    as (st1 & store & _ & Hr').
  rewrite (Get_of_read c ctx ns now st' st' _ Hr'), getLoop_upsert_same.
  unfold After. by rewrite (proj2 (Z.ltb_lt _ _) Hexp).
Qed.
End MoreCacheRuns.

Section MoreClientRuns.
Context {TokenRequest : Type}.
Variable ExpirationTimestamp : TokenRequest -> Time.
Variable json : JSON TokenRequest.

(** X9: [GetKubeToken] touches the cache only when it succeeds.  When it
    returns an error the cache is as it was, and the error is one of the five
    the function builds; when it returns a string, the response had status
    200, the string is its body, the body decoded, and the cache went through
    one [Set] for the client's context and namespace with the decoded
    token. *)
Theorem GetKubeToken_outcomes {C} (c : KubeTokenClient TokenRequest C) (st : C) :
  match GetKubeToken json c st with
  | (st', Err e) =>
      st' = st
      /\ ((exists cause, httpClient c (url c) = inl cause /\ e = ErrFailedGet cause)
          \/ (exists resp, httpClient c (url c) = inr resp /\
               ((StatusCode resp = 401 /\ e = ErrNotLogged (contextName c))
                \/ (StatusCode resp <> 401 /\ StatusCode resp <> 200
                    /\ e = ErrStatus (Status resp))
                \/ (StatusCode resp = 200
                    /\ exists cause, Body resp = inl cause /\ e = ErrReadResponse cause)
                \/ (StatusCode resp = 200
                    /\ exists body, Body resp = inr body
                                    /\ UnmarshalToken json body = None
                                    /\ e = ErrUnmarshalResponse))))
  | (st', Ok tokenString) =>
      exists resp token,
        httpClient c (url c) = inr resp
        /\ StatusCode resp = 200
        /\ Body resp = inr tokenString
        /\ UnmarshalToken json tokenString = Some token
        /\ st' = cacheSet (cache c) (contextName c) (namespace c) token st
  end.
Proof.
  unfold GetKubeToken, StatusUnauthorized, StatusOK.
  destruct (httpClient c (url c)) as [cause|resp] eqn:Hh.
  - split; [reflexivity|]. left. eauto.
  - destruct (StatusCode resp =? 401) eqn:E401.
    + apply Z.eqb_eq in E401. split; [reflexivity|]. right. exists resp. auto.
    + apply Z.eqb_neq in E401. destruct (StatusCode resp =? 200) eqn:E200; simpl.
      * apply Z.eqb_eq in E200. destruct (Body resp) as [cause|body] eqn:Hb.
        { split; [reflexivity|]. right. exists resp. split; [reflexivity|].
          right. right. left. eauto. }
        destruct (UnmarshalToken json body) as [token|] eqn:Hu.
        { exists resp, token. auto. }
        split; [reflexivity|]. right. exists resp. split; [reflexivity|].
        right. right. right. eauto.
      * apply Z.eqb_neq in E200. split; [reflexivity|]. right. exists resp.
        split; [reflexivity|]. right. left. auto.
Qed.

(** X10: after a fetch whose cache write succeeded, over a byte store that
    hands back what was written, when the bytes written decode to the
    sequence that was encoded and the encoding of the token decodes to the
    token, a [Get] on the cache for the client's context and namespace,
    before the token expires, returns a string that decodes to the same
    token as the body the fetch returned. *)
Theorem GetKubeToken_then_Get {S} (kc : KubeTokenCache S)
    (c : KubeTokenClient TokenRequest S) (st st' : S) (now : Time)
    (resp : Response) (body : bytes) (token : TokenRequest) :
  readsBackWrites (StringStore kc) ->
  writeDecodesBack json kc (contextName c) (namespace c) token st ->
  tokenDecodesBack json token ->
  cache c = KubeTokenCache_cacheSetter json kc ->
  httpClient c (url c) = inr resp ->
  StatusCode resp = 200 ->
  Body resp = inr body ->
  UnmarshalToken json body = Some token ->
  now < ExpirationTimestamp token ->
  setWithErr json kc (contextName c) (namespace c) token st = (st', Ok tt) ->
  GetKubeToken json c st = (st', Ok body)
  /\ exists tokenString,
       Get ExpirationTimestamp json kc (contextName c) (namespace c) now st'
       = (st', Ok tokenString)
       /\ UnmarshalToken json tokenString = UnmarshalToken json body.
Proof.
  intros HX HD (tokenString & Hm & Hu) Hcache Hresp Hcode Hbody Htok Hexp Hset.
  split.
  - rewrite (GetKubeToken_ok json c st resp body token Hresp Hcode Hbody Htok), Hcache.
    simpl. unfold Set_. by rewrite Hset.
  - exists tokenString. split; [|by rewrite Htok].
    rewrite (Get_after_write ExpirationTimestamp json kc _ _ token now st st'
               HX HD Hexp Hset).
    by rewrite Hm.
Qed.

(** X12: [NewKubeTokenClient] refuses the empty context before it asks for
    an HTTP client; otherwise it asks for one with the path made of the
    kubetoken prefix and the namespace, hands on its failure, and on success
    builds a client that carries the given context, namespace and cache and
    the URL it was given.  A 401 answer to that client is therefore reported
    with the context the constructor received, which is not empty. *)
Theorem NewKubeTokenClient_builds {C} (factory : httpClientFactory)
    (ctx token ns : string) (sink : cacheSetter TokenRequest C) :
  (ctx = ""%string ->
     NewKubeTokenClient factory ctx token ns sink = inl ErrCtxNotSet)
  /\ (forall cause,
        ctx <> ""%string ->
        factory ctx token ("auth/kubetoken/" +:+ ns) = inl cause ->
        NewKubeTokenClient factory ctx token ns sink = inl (ErrHttpClient cause))
  /\ (forall c,
        NewKubeTokenClient factory ctx token ns sink = inr c ->
        ctx <> ""%string
        /\ factory ctx token ("auth/kubetoken/" +:+ ns) = inr (httpClient c, url c)
        /\ contextName c = ctx /\ namespace c = ns /\ cache c = sink
        /\ (forall resp st,
              httpClient c (url c) = inr resp -> StatusCode resp = 401 ->
              GetKubeToken json c st = (st, Err (ErrNotLogged ctx)))).
Proof.
  unfold NewKubeTokenClient, kubetokenPath.
  change ("auth/kubetoken" +:+ "/" +:+ ns) with ("auth/kubetoken/" +:+ ns).
  split; [|split].
  - intros ->. reflexivity.
  - intros cause Hne Hf. rewrite (proj2 (String.eqb_neq _ _) Hne), Hf. reflexivity.
  - intros c. destruct (String.eqb ctx "") eqn:E; [discriminate|].
    apply String.eqb_neq in E.
    destruct (factory ctx token ("auth/kubetoken/" +:+ ns)) as [cause|[client target]]
      eqn:Hf; [discriminate|].
    intros [= <-]. simpl. repeat split; try done.
    intros resp st Hresp Hcode. unfold GetKubeToken. simpl. rewrite Hresp.
    unfold StatusUnauthorized. by rewrite Hcode.
Qed.
End MoreClientRuns.

Section MoreFileRuns.
Context {W : Type}.
Variable os : OS W.

(** X6: [FileByteStore.Get] writes to the file system in one case only: [Stat]
    reported that the file is not there, and what it then writes to that file
    is the text of the empty sequence.  A file that is there is read and
    returned as it is, and any other [Stat] error is returned with nothing
    written. *)
Theorem FileByteStore_Get_writes_only_when_missing (s : FileByteStore) (w : W)
    (tr : list (string * bytes)) :
  match Stat os (FileName s) w with
  | None =>
      FileByteStore_Get (tracedOS os) s (w, tr)
      = ((w, tr), match ReadFile os (FileName s) w with
                  | inl err => Err (ErrReadingFile err)
                  | inr contents => Ok contents
                  end)
  | Some err =>
      if isNotExist err
      then snd (fst (FileByteStore_Get (tracedOS os) s (w, tr)))
           = tr ++ [(FileName s, "[]"%string)]
      else FileByteStore_Get (tracedOS os) s (w, tr) = ((w, tr), Err (ErrCheckingFile err))
  end.
Proof.
  unfold FileByteStore_Get. simpl.
  destruct (Stat os (FileName s) w) as [err|].
  - destruct (isNotExist err); simpl; [|reflexivity].
    destruct (WriteFile os (FileName s) "[]" w) as [w1 [e|]]; simpl; [reflexivity|].
    by destruct (ReadFile os (FileName s) w1).
  - by destruct (ReadFile os (FileName s) w).
Qed.

(** X7: once [FileByteStore.Get] has returned contents, calling it again
    returns the same contents and leaves the file system as it is: the file
    is created at most once. *)
Theorem FileByteStore_Get_twice (s : FileByteStore) (w w1 : W) (contents : bytes) :
  OSLaws os ->
  FileByteStore_Get os s w = (w1, Ok contents) ->
  FileByteStore_Get os s w1 = (w1, Ok contents)
  /\ forall tr, FileByteStore_Get (tracedOS os) s (w1, tr) = ((w1, tr), Ok contents).
Proof.
  intros HO. unfold FileByteStore_Get. simpl.
  destruct (Stat os (FileName s) w) as [err|] eqn:Hstat.
  - destruct (isNotExist err); simpl; [|discriminate].
    destruct (WriteFile os (FileName s) "[]" w) as [w2 [e|]] eqn:Hw; [discriminate|].
    destruct (ReadFile os (FileName s) w2) as [e|c] eqn:Hr; [discriminate|].
    intros [= <- <-].
    rewrite (stat_after_write os HO _ _ _ _ Hw), Hr. auto.
  - destruct (ReadFile os (FileName s) w) as [e|c] eqn:Hr; [discriminate|].
    intros [= <- <-]. rewrite Hstat, Hr. auto.
Qed.

(** X8: [FileByteStore.Set] replaces the whole contents: after two
    successful calls a [Get] returns the bytes of the second, whatever the
    file held before and whether or not it existed. *)
Theorem FileByteStore_Set_overwrites (s : FileByteStore) (w w1 w2 : W)
    (first second : bytes) :
  OSLaws os ->
  FileByteStore_Set os s first w = (w1, Ok tt) ->
  FileByteStore_Set os s second w1 = (w2, Ok tt) ->
  FileByteStore_Get os s w1 = (w1, Ok first)
  /\ FileByteStore_Get os s w2 = (w2, Ok second).
Proof.
  intros HO H1 H2.
  pose proof (FileByteStore_readsBackWrites os s HO) as HX.
  split; [exact (HX first w w1 H1) | exact (HX second w1 w2 H2)].
Qed.
End MoreFileRuns.

Section FreshFileRuns.
Context {TokenRequest : Type}.
Variable json : JSON TokenRequest.
Context {W : Type}.
Variable os : OS W.

(** X5: the first write to a cache whose file is not there, on a file
    system where the writes succeed and a written file reads back as written
    and with the text of the empty sequence decoding to it, makes two writes
    to the file, that text and then the encoding of the one new entry; and
    when that encoding decodes to the entry, the entry alone is read back
    afterwards. *)
Theorem setWithErr_creates_file (s : FileByteStore) (ctx ns : string)
    (token : TokenRequest) (w w1 w2 : W) (tr : list (string * bytes))
    (newStore : bytes) :
  OSLaws os ->
  UnmarshalStore json "[]"%string = Some [] ->
  Stat os (FileName s) w = Some ErrNotExist ->
  WriteFile os (FileName s) "[]"%string w = (w1, None) ->
  MarshalIndentStore json
    [ {| ContextName := ctx; Namespace := ns; Token := token |} ] = Some newStore ->
  WriteFile os (FileName s) newStore w1 = (w2, None) ->
  setWithErr json {| StringStore := FileByteStore_stringStore (tracedOS os) s |}
    ctx ns token (w, tr)
  = ((w2, tr ++ [(FileName s, "[]"%string); (FileName s, newStore)]), Ok tt)
  /\ (UnmarshalStore json newStore
       = Some [ {| ContextName := ctx; Namespace := ns; Token := token |} ] ->
      read json {| StringStore := FileByteStore_stringStore os s |} w2
      = (w2, Ok [ {| ContextName := ctx; Namespace := ns; Token := token |} ])).
Proof.
  intros HO HJ Hstat Hw1 Hm Hw2.
  pose proof (read_after_write os HO _ _ _ _ Hw1) as Hr1.
  pose proof (read_after_write os HO _ _ _ _ Hw2) as Hr2.
  pose proof (stat_after_write os HO _ _ _ _ Hw2) as Hs2.
  split.
  - run_cache. unfold FileByteStore_Get, FileByteStore_Set. simpl.
    rewrite Hstat. simpl. rewrite Hw1. simpl. rewrite Hr1.
    rewrite HJ.
    change (upsert ctx ns token [])
      with [ {| ContextName := ctx; Namespace := ns; Token := token |} ].
    rewrite Hm. simpl. rewrite Hw2. simpl. by rewrite <- app_assoc.
  - intros Hdec. eapply read_decoded; [|exact Hdec].
    simpl. unfold FileByteStore_Get. by rewrite Hs2, Hr2.
Qed.
End FreshFileRuns.

(** * Facts about the git repository controller *)

Module RepositoryFacts.
Import Repository.

Lemma IsClean_empty (gs : gitStatusInterface) :
  IsClean gs = bool_decide (status gs = ""%string).
Proof.
  unfold IsClean. destruct gs as [[|c s]]; reflexivity.
Qed.

(** X14: [isClean] fails only when the repository or its work tree cannot be
    opened, with the cause wrapped once.  Otherwise it prints the status and
    answers whether the output of the git command was empty, whatever error
    the command itself returned: a command that failed without output gives
    the answer true. *)
Theorem isClean_outcomes {W} (host : Host W) (r : gitRepoController W) (w : W) :
  match isClean host r w with
  | (w', inl e) =>
      exists cause,
        e = ErrAnalyze cause
        /\ (get (repoGetter r) (path r) w = (w', inl cause)
            \/ exists w1 repo,
                 get (repoGetter r) (path r) w = (w1, inr repo)
                 /\ Worktree repo w1 = (w', inl cause))
  | (w', inr clean) =>
      exists w1 repo w2 wt w3 out err,
        get (repoGetter r) (path r) w = (w1, inr repo)
        /\ Worktree repo w1 = (w2, inr wt)
        /\ gitStatusPorcelain host (GetRoot wt) w2 = (w3, (out, err))
        /\ w' = Println host ("{" +:+ out +:+ "}") w3
        /\ clean = bool_decide (out = ""%string)
  end.
Proof.
  unfold isClean, getGitStatus.
  destruct (get (repoGetter r) (path r) w) as [w1 [cause|repo]] eqn:Hget.
  - exists cause. auto.
  - destruct (Worktree repo w1) as [w2 [cause|wt]] eqn:Hwt.
    + exists cause. split; [reflexivity|]. right. eauto.
    + destruct (gitStatusPorcelain host (GetRoot wt) w2) as [w3 [out err]] eqn:Hcmd.
      destruct err as [err|]; exists w1, repo, w2, wt, w3, out;
        [exists (Some err) | exists None];
        (repeat split; try done); apply IsClean_empty.
Qed.

(** X15: [getSHA] answers a hash only for a tree that [isClean] found clean,
    and then it is the hash of the head; for a tree that is not clean it
    answers the empty string with no error and does not ask for the head; an
    error of [isClean] comes back wrapped once more. *)
Theorem getSHA_outcomes {W} (host : Host W) (r : gitRepoController W) (w w0 : W) :
  (forall e, isClean host r w = (w0, inl e) ->
     getSHA host r w = (w0, inl (ErrCheckClean e)))
  /\ (isClean host r w = (w0, inr false) ->
      getSHA host r w = (w0, inr ""%string))
  /\ (isClean host r w = (w0, inr true) ->
      getSHA host r w
      = match get (repoGetter r) (path r) w0 with
        | (w1, inl err) => (w1, inl (ErrAnalyze err))
        | (w1, inr repo) =>
            match Head repo w1 with
            | (w2, inl err) => (w2, inl (ErrAnalyze err))
            | (w2, inr hash) => (w2, inr hash)
            end
        end)
  /\ (forall w' sha,
        getSHA host r w = (w', inr sha) -> sha <> ""%string ->
        exists w1 w2 repo,
          isClean host r w = (w1, inr true)
          /\ get (repoGetter r) (path r) w1 = (w2, inr repo)
          /\ Head repo w2 = (w', inr sha)).
Proof.
  unfold getSHA. split; [|split; [|split]].
  - intros e ->. reflexivity.
  - intros ->. reflexivity.
  - intros ->. reflexivity.
  - intros w' sha. destruct (isClean host r w) as [w1 [e|[|]]]; simpl;
      [discriminate | | intros [= <- <-] Hne; by destruct Hne].
    destruct (get (repoGetter r) (path r) w1) as [w2 [e|repo]] eqn:Hget; [discriminate|].
    destruct (Head repo w2) as [w3 [e|hash]] eqn:Hhead; [discriminate|].
    intros [= <- <-] _. exists w1, w2, repo. auto.
Qed.
End RepositoryFacts.

(** * Facts about the timers *)

Module BenchmarkFacts.
Import Benchmark.

(** A call on one timer leaves every other timer as it is. *)
Lemma runCall_other (st : state) (c : timerCall) (name : string) :
  callName c <> name -> timers (runCall st c) !! name = timers st !! name.
Proof.
  intros Hne. destruct c as [n now|n now]; simpl in *.
  - by rewrite lookup_insert_ne.
  - unfold StopTimer. destruct (timers st !! n); simpl; [|reflexivity].
    by rewrite lookup_insert_ne.
Qed.

Lemma runCalls_other (calls : list timerCall) (st : state) (name : string) :
  Forall (fun c => callName c <> name) calls ->
  timers (runCalls calls st) !! name = timers st !! name.
Proof.
  unfold runCalls. revert st. induction calls as [|c calls IH]; intros st Hall;
    [reflexivity|].
  apply Forall_cons in Hall as [Hc Hall]. simpl.
  rewrite (IH _ Hall). by apply runCall_other.
Qed.

(** What a run of calls does to one timer depends on that timer alone. *)
Lemma runCall_frame (st1 st2 : state) (c : timerCall) (name : string) :
  timers st1 !! name = timers st2 !! name ->
  timers (runCall st1 c) !! name = timers (runCall st2 c) !! name.
Proof.
  intros Heq. destruct (decide (callName c = name)) as [<-|Hne].
  - destruct c as [n now|n now]; simpl in *.
    + by rewrite !lookup_insert_eq.
    + unfold StopTimer. rewrite <- Heq.
      destruct (timers st1 !! n) as [s|] eqn:Hl; simpl; [|congruence].
      by rewrite !lookup_insert_eq.
  - by rewrite !runCall_other.
Qed.

Lemma runCalls_frame (calls : list timerCall) (name other : string) (t0 : Time)
    (st : state) :
  other <> name ->
  timers (runCalls calls (StartTimer name t0 st)) !! other
  = timers (runCalls calls st) !! other.
Proof.
  intros Hne. unfold runCalls.
  assert (Hst : timers (StartTimer name t0 st) !! other = timers st !! other).
  { simpl. by rewrite lookup_insert_ne. }
  revert Hst. generalize (StartTimer name t0 st) as st1. revert st.
  induction calls as [|c calls IH]; intros st st1 Hst; [exact Hst|].
  simpl. apply IH. by apply runCall_frame.
Qed.

(** X16: [StopTimer] never adds a timer.  For a name that was not started
    it leaves the map as it is and prints that the timer does not exist; for
    a started one it sets the end and keeps the start. *)
Theorem StopTimer_adds_no_timer (name : string) (now : Time) (st : state) :
  dom (timers (StopTimer name now st)) = dom (timers st)
  /\ (timers st !! name = None ->
      timers (StopTimer name now st) = timers st
      /\ stdout (StopTimer name now st)
         = stdout st ++ ["Timer " +:+ name +:+ " doesn't exist" +:+ newline])
  /\ (forall s, timers st !! name = Some s ->
        timers (StopTimer name now st) !! name
        = Some {| start := start s; end_ := now |}).
Proof.
  unfold StopTimer. destruct (timers st !! name) as [s|] eqn:Hl; simpl.
  - split; [|split].
    + rewrite dom_insert_L. apply elem_of_dom_2 in Hl.
      apply subseteq_union_1_L. by apply singleton_subseteq_l.
    + discriminate.
    + intros s' [= <-]. by rewrite lookup_insert_eq.
  - split; [reflexivity|]. split; [done|discriminate].
Qed.

(** X17: a timer started at one instant and stopped at a later call holds
    exactly those two instants, whatever calls were made on other timers in
    between, from any state of the map; and those calls on other timers see
    their own timers as if this one had never been started. *)
Theorem timer_keeps_its_span (name : string) (t0 t1 : Time)
    (calls : list timerCall) (st : state) :
  Forall (fun c => callName c <> name) calls ->
  timers (StopTimer name t1 (runCalls calls (StartTimer name t0 st))) !! name
  = Some {| start := t0; end_ := t1 |}
  /\ (forall other, other <> name ->
        timers (StopTimer name t1 (runCalls calls (StartTimer name t0 st))) !! other
        = timers (runCalls calls st) !! other).
Proof.
  intros Hall.
  assert (Hl : timers (runCalls calls (StartTimer name t0 st)) !! name
               = Some {| start := t0; end_ := zeroTime |}).
  { rewrite (runCalls_other calls _ name Hall). simpl. by rewrite lookup_insert_eq. }
  split.
  - unfold StopTimer. rewrite Hl. simpl. by rewrite lookup_insert_eq.
  - intros other Hne.
    etrans; [apply (runCall_other _ (Stop name t1) other); simpl; congruence|].
    by apply runCalls_frame.
Qed.
End BenchmarkFacts.

(** * Facts about the timers behind the lock *)

Module BenchmarkLockedFacts.
Import Benchmark BenchmarkLocked.

Section Printing.
Variable showTimer : string -> span -> string.

Lemma printLines (names : list string) : forall acc : lstate,
  foldl (fun acc name =>
           onInner (fun s => print (showTimer name (timerOf s name)) s) acc)
        acc names
  = {| inner := {| timers := timers (inner acc);
                   stdout := stdout (inner acc) ++ tableLines showTimer (inner acc) names |};
       locked := locked acc |}.
Proof.
  induction names as [|name names IH]; intros [[t out] l]; simpl.
  - by rewrite app_nil_r.
  - rewrite IH. simpl. unfold tableLines, timerOf. simpl.
    by rewrite <- app_assoc.
Qed.

Lemma PrintTimers_unlocked (keys : list string) (st : lstate) :
  locked st = false ->
  PrintTimers showTimer keys st
  = Some {| inner := {| timers := timers (inner st);
                        stdout := stdout (inner st)
                                  ++ header :: tableLines showTimer (inner st)
                                                 (merge_sort String.le keys) |};
            locked := false |}.
Proof.
  intros Hl. unfold PrintTimers, Lock. rewrite Hl. simpl.
  rewrite printLines. unfold Unlock. simpl. unfold tableLines, timerOf. simpl.
  by rewrite <- app_assoc.
Qed.

Lemma sorted_names_unique (keys1 keys2 : list string) :
  keys1 ≡ₚ keys2 -> merge_sort String.le keys1 = merge_sort String.le keys2.
Proof.
  intros Hp. apply (Sorted_unique String.le).
  - apply Sorted_merge_sort; apply _.
  - apply Sorted_merge_sort; apply _.
  - by rewrite !merge_sort_Permutation.
Qed.

(** X18: called with the mutex free, each of the three functions returns
    with the mutex free again; [StopTimer] gives it up before it calls
    [PrintTimers], which takes it anew.  Called with the mutex held, none of
    them returns. *)
Theorem timers_release_the_lock (keys : list string) (name : string) (now : Time)
    (st : lstate) :
  (locked st = false ->
     (exists st', StartTimer name now st = Some st' /\ locked st' = false)
     /\ (exists st', PrintTimers showTimer keys st = Some st' /\ locked st' = false)
     /\ (exists st', StopTimer showTimer keys name now st = Some st'
                     /\ locked st' = false))
  /\ (locked st = true ->
      StartTimer name now st = None
      /\ PrintTimers showTimer keys st = None
      /\ StopTimer showTimer keys name now st = None).
Proof.
  split.
  - intros Hl. split; [|split].
    + unfold StartTimer, Lock. rewrite Hl. simpl. eauto.
    + rewrite PrintTimers_unlocked by exact Hl. eauto.
    + unfold StopTimer, Lock. rewrite Hl. simpl.
      destruct (timers (inner st) !! name) as [s|]; simpl.
      * rewrite PrintTimers_unlocked by reflexivity. eauto.
      * eauto.
  - intros Hl. unfold StartTimer, PrintTimers, StopTimer, Lock. by rewrite Hl.
Qed.

(** X19: the table [PrintTimers] prints does not depend on the order in
    which the map yields its names: after the header comes one line for each
    name, in ascending order of the names, and the map is left as it is. *)
Theorem PrintTimers_table (keys1 keys2 : list string) (st : lstate) :
  locked st = false ->
  keys1 ≡ₚ keys2 ->
  PrintTimers showTimer keys1 st = PrintTimers showTimer keys2 st
  /\ exists names,
       names ≡ₚ keys1
       /\ Sorted String.le names
       /\ PrintTimers showTimer keys1 st
          = Some {| inner := {| timers := timers (inner st);
                                stdout := stdout (inner st)
                                          ++ header :: tableLines showTimer (inner st) names |};
                    locked := false |}.
Proof.
  intros Hl Hp. split.
  - rewrite !PrintTimers_unlocked by exact Hl.
    by rewrite (sorted_names_unique keys1 keys2 Hp).
  - exists (merge_sort String.le keys1). split; [apply merge_sort_Permutation|].
    split; [apply Sorted_merge_sort; apply _|]. by apply PrintTimers_unlocked.
Qed.

(** X20: stopping a started timer prints the table, and the table has the
    line of that timer with its start and the instant of the stop as its
    end; stopping a timer that was not started prints the one message and no
    table. *)
Theorem StopTimer_prints_the_table (keys : list string) (name : string)
    (now : Time) (st : lstate) :
  locked st = false ->
  (forall s,
     timers (inner st) !! name = Some s ->
     name ∈ keys ->
     exists st',
       StopTimer showTimer keys name now st = Some st'
       /\ timers (inner st') !! name = Some {| start := start s; end_ := now |}
       /\ header ∈ stdout (inner st')
       /\ showTimer name {| start := start s; end_ := now |} ∈ stdout (inner st'))
  /\ (timers (inner st) !! name = None ->
      StopTimer showTimer keys name now st
      = Some {| inner := {| timers := timers (inner st);
                            stdout := stdout (inner st)
                              ++ ["Timer " +:+ name +:+ " doesn't exist" +:+ newline] |};
                locked := false |}).
Proof.
  intros Hl. split.
  - intros s Hs Hin. unfold StopTimer, Lock. rewrite Hl. simpl. rewrite Hs. simpl.
    rewrite PrintTimers_unlocked by reflexivity. eexists. split; [reflexivity|].
    simpl. split; [by rewrite lookup_insert_eq|]. split.
    + apply elem_of_app. right. apply list_elem_of_here.
    + apply elem_of_app. right. apply list_elem_of_further.
      unfold tableLines. apply list_elem_of_fmap.
      exists name. split.
      * unfold timerOf. simpl. by rewrite lookup_insert_eq.
      * by rewrite merge_sort_Permutation.
  - intros Hn. unfold StopTimer, Lock. rewrite Hl. simpl. by rewrite Hn.
Qed.
End Printing.
End BenchmarkLockedFacts.

(** * The further facts on concrete runs *)

Module MoreRuns.
Import RefCodec RefCodecFacts Examples.

(** Writing tokenB for the second key leaves the answer for the first. *)
Lemma setWithErr_keeps_other_keys_witness :
  snd (Get expiration json memCache "ctx1" "ns1" 0
         (encodeStore [entry "ctx1" "ns1" tokenA; entry "ctx2" "ns1" tokenB]))
  = snd (Get expiration json memCache "ctx1" "ns1" 0 (encodeStore twoKeys)).
Proof.
  apply (setWithErr_keeps_other_keys expiration json memCache
           "ctx2" "ns1" "ctx1" "ns1" tokenB 0 (encodeStore twoKeys)
           (encodeStore [entry "ctx1" "ns1" tokenA; entry "ctx2" "ns1" tokenB])).
  - exact memStore_readsBackWrites.
  - apply write_decodesBack.
  - discriminate.
  - vm_compute. reflexivity.
Defined.

(** Writing tokenA and then tokenB for one key into the empty store. *)
Lemma setWithErr_last_write_wins_witness :
  exists st0 store,
    read json memCache "[]"%string = (st0, Ok store)
    /\ read json memCache (encodeStore [entry "ctx1" "ns1" tokenB])
       = (encodeStore [entry "ctx1" "ns1" tokenB],
          Ok (upsert "ctx1" "ns1" tokenB store))
    /\ holdsToken "ctx1" "ns1" tokenB (upsert "ctx1" "ns1" tokenB store)
    /\ (forall r, r ∈ upsert "ctx1" "ns1" tokenB store ->
          sameKey "ctx1" "ns1" r = true -> Token r = tokenB).
Proof.
  apply (setWithErr_last_write_wins json memCache "ctx1" "ns1" tokenA tokenB
           "[]"%string (encodeStore [entry "ctx1" "ns1" tokenA])
           (encodeStore [entry "ctx1" "ns1" tokenB])).
  - exact memStore_readsBackWrites.
  - apply write_decodesBack.
  - apply write_decodesBack.
  - vm_compute. reflexivity.
  - vm_compute. reflexivity.
Defined.

(** Writing tokenB over a store that holds the key twice. *)
Lemma upsert_rewrites_every_entry_witness :
  upsert "ctx1" "ns1" tokenB sameKeyTwice
    = [entry "ctx1" "ns1" tokenB; entry "ctx1" "ns1" tokenB]
  /\ length (upsert "ctx1" "ns1" tokenB sameKeyTwice) = length sameKeyTwice
  /\ countKey "ctx1" "ns1" (upsert "ctx1" "ns1" tokenB sameKeyTwice)
     = countKey "ctx1" "ns1" sameKeyTwice
  /\ keyOf <$> upsert "ctx1" "ns1" tokenB sameKeyTwice = keyOf <$> sameKeyTwice.
Proof.
  split; [reflexivity|].
  apply (proj1 (proj2 (proj2 (upsert_rewrites_every_entry
                                "ctx1" "ns1" tokenB sameKeyTwice)))).
  vm_compute. lia.
Defined.

(** Three writes, two of them for one key, into the empty store. *)
Lemma setAll_keeps_keys_unique_witness :
  exists st1 store',
    read json memCache
      (encodeStore [entry "ctx1" "ns1" tokenOld; entry "ctx2" "ns1" tokenB])
    = (st1, Ok store')
    /\ uniqueKeys store'
    /\ (forall ctx ns, (countKey ctx ns store' <= 1)%nat)
    /\ Forall (fun _ => True) store'
    /\ (length store' <= length ([] : list (storeRegister token)) + 3)%nat.
Proof.
  apply (setAll_keeps_keys_unique json (fun _ => True) memCache
           [("ctx1", "ns1", tokenA); ("ctx2", "ns1", tokenB);
            ("ctx1", "ns1", tokenOld)]%string
           "[]"%string "[]"%string []
           (encodeStore [entry "ctx1" "ns1" tokenOld; entry "ctx2" "ns1" tokenB])).
  - exact memStore_readsBackWrites.
  - intros store _. apply store_decodesBack.
  - repeat (apply Forall_cons; split; [exact I|]). apply Forall_nil_2.
  - reflexivity.
  - apply NoDup_nil_2.
  - apply Forall_nil_2.
  - vm_compute. reflexivity.
Defined.

(** Storing the token that expired an hour ago and reading at instant 0. *)
Lemma expired_token_is_stored_and_missed_witness :
  Get expiration json memCache "ctx1" "ns1" 0
    (encodeStore [entry "ctx1" "ns1" tokenOld])
  = (encodeStore [entry "ctx1" "ns1" tokenOld], Ok ""%string)
  /\ exists store,
       read json memCache (encodeStore [entry "ctx1" "ns1" tokenOld])
       = (encodeStore [entry "ctx1" "ns1" tokenOld], Ok store)
       /\ holdsToken "ctx1" "ns1" tokenOld store.
Proof.
  apply (expired_token_is_stored_and_missed expiration json memCache
           "ctx1" "ns1" tokenOld 0 "[]"%string
           (encodeStore [entry "ctx1" "ns1" tokenOld])).
  - exact memStore_readsBackWrites.
  - apply write_decodesBack.
  - discriminate.
  - vm_compute. reflexivity.
Defined.

(** Fetching tokenA into the empty cache and reading it at instant 0. *)
Lemma GetKubeToken_then_Get_witness :
  GetKubeToken json (clientOf memCache okResponse) "[]"%string
    = (encodeStore [entry "ctx1" "ns1" tokenA], Ok (encodeToken tokenA))
  /\ exists tokenString,
       Get expiration json memCache "ctx1" "ns1" 0
         (encodeStore [entry "ctx1" "ns1" tokenA])
       = (encodeStore [entry "ctx1" "ns1" tokenA], Ok tokenString)
       /\ UnmarshalToken json tokenString = UnmarshalToken json (encodeToken tokenA).
Proof.
  apply (GetKubeToken_then_Get expiration json memCache
           (clientOf memCache okResponse) "[]"%string
           (encodeStore [entry "ctx1" "ns1" tokenA]) 0
           okResponse (encodeToken tokenA) tokenA).
  - exact memStore_readsBackWrites.
  - apply write_decodesBack.
  - apply token_decodesBack.
  - reflexivity.
  - reflexivity.
  - reflexivity.
  - reflexivity.
  - vm_compute. reflexivity.
  - reflexivity.
  - vm_compute. reflexivity.
Defined.

(** Building a client for ctx1 and ns1 with a factory that answers 401. *)
Lemma NewKubeTokenClient_builds_witness :
  NewKubeTokenClient
    (fun _ _ p => inr (fun _ => inr unauthorized, "https://okteto.example/" +:+ p))
    "" "secret" "ns1"
    (KubeTokenCache_cacheSetter json memCache) = inl ErrCtxNotSet
  /\ exists c,
       NewKubeTokenClient
         (fun _ _ p => inr (fun _ => inr unauthorized, "https://okteto.example/" +:+ p))
         "ctx1" "secret" "ns1"
         (KubeTokenCache_cacheSetter json memCache) = inr c
       /\ url c = "https://okteto.example/auth/kubetoken/ns1"%string
       /\ GetKubeToken json c "[]"%string = ("[]"%string, Err (ErrNotLogged "ctx1")).
Proof.
  split.
  - apply (proj1 (NewKubeTokenClient_builds json
                    (fun _ _ p => inr (fun _ => inr unauthorized,
                                       "https://okteto.example/" +:+ p))
                    "" "secret" "ns1" (KubeTokenCache_cacheSetter json memCache))).
    reflexivity.
  - eexists. split; [reflexivity|]. split; [reflexivity|].
    eapply (proj2 (proj2 (NewKubeTokenClient_builds json
                            (fun _ _ p => inr (fun _ => inr unauthorized,
                                               "https://okteto.example/" +:+ p))
                            "ctx1" "secret" "ns1"
                            (KubeTokenCache_cacheSetter json memCache)))).
    + reflexivity.
    + reflexivity.
    + reflexivity.
Defined.

(** Reading the file of a fresh file system twice. *)
Lemma FileByteStore_Get_twice_witness :
  FileByteStore_Get memOS tokenFile (<["kubetoken.json"%string := "[]"%string]> ∅)
    = (<["kubetoken.json"%string := "[]"%string]> ∅, Ok "[]"%string)
  /\ forall tr,
       FileByteStore_Get (tracedOS memOS) tokenFile
         (<["kubetoken.json"%string := "[]"%string]> ∅, tr)
       = ((<["kubetoken.json"%string := "[]"%string]> ∅, tr), Ok "[]"%string).
Proof.
  apply (FileByteStore_Get_twice memOS tokenFile ∅
           (<["kubetoken.json"%string := "[]"%string]> ∅) "[]"%string).
  - exact memOS_laws.
  - reflexivity.
Defined.

(** Two writes to a file that was not there. *)
Lemma FileByteStore_Set_overwrites_witness :
  FileByteStore_Get memOS tokenFile (<["kubetoken.json"%string := "first"%string]> ∅)
    = (<["kubetoken.json"%string := "first"%string]> ∅, Ok "first"%string)
  /\ FileByteStore_Get memOS tokenFile
       (<["kubetoken.json"%string := "second"%string]>
          (<["kubetoken.json"%string := "first"%string]> ∅))
    = (<["kubetoken.json"%string := "second"%string]>
         (<["kubetoken.json"%string := "first"%string]> ∅), Ok "second"%string).
Proof.
  apply (FileByteStore_Set_overwrites memOS tokenFile ∅
           (<["kubetoken.json"%string := "first"%string]> ∅)
           (<["kubetoken.json"%string := "second"%string]>
              (<["kubetoken.json"%string := "first"%string]> ∅))
           "first"%string "second"%string).
  - exact memOS_laws.
  - reflexivity.
  - reflexivity.
Defined.

(** The first write of tokenA to a file system with no file. *)
Lemma setWithErr_creates_file_witness :
  setWithErr json {| StringStore := FileByteStore_stringStore (tracedOS memOS) tokenFile |}
    "ctx1" "ns1" tokenA (∅, [])
  = ((<["kubetoken.json"%string := encodeStore [entry "ctx1" "ns1" tokenA]]>
        (<["kubetoken.json"%string := "[]"%string]> ∅),
      [] ++ [("kubetoken.json"%string, "[]"%string);
             ("kubetoken.json"%string, encodeStore [entry "ctx1" "ns1" tokenA])]),
     Ok tt)
  /\ read json {| StringStore := FileByteStore_stringStore memOS tokenFile |}
       (<["kubetoken.json"%string := encodeStore [entry "ctx1" "ns1" tokenA]]>
          (<["kubetoken.json"%string := "[]"%string]> ∅))
     = (<["kubetoken.json"%string := encodeStore [entry "ctx1" "ns1" tokenA]]>
          (<["kubetoken.json"%string := "[]"%string]> ∅),
        Ok [entry "ctx1" "ns1" tokenA]).
Proof.
  destruct (setWithErr_creates_file json memOS tokenFile "ctx1" "ns1" tokenA
              ∅ (<["kubetoken.json"%string := "[]"%string]> ∅)
              (<["kubetoken.json"%string := encodeStore [entry "ctx1" "ns1" tokenA]]>
                 (<["kubetoken.json"%string := "[]"%string]> ∅))
              [] (encodeStore [entry "ctx1" "ns1" tokenA]))
    as [Hwrites Hread].
  - exact memOS_laws.
  - reflexivity.
  - reflexivity.
  - reflexivity.
  - reflexivity.
  - reflexivity.
  - split; [exact Hwrites|]. apply Hread. vm_compute. reflexivity.
Defined.

(** A git command that fails without output, on a repository that opens. *)
Lemma getSHA_outcomes_witness :
  Repository.getSHA (Repository.fixedHost "" (Some "exit status 128"%string))
    (Repository.fixedController "/repo" "0a1b2c") []
  = (["{}"%string], inr "0a1b2c"%string)
  /\ Repository.getSHA (Repository.fixedHost " M main.go" None)
       (Repository.fixedController "/repo" "0a1b2c") []
     = (["{ M main.go}"%string], inr ""%string).
Proof.
  split.
  - apply (proj1 (proj2 (proj2 (RepositoryFacts.getSHA_outcomes
                    (Repository.fixedHost "" (Some "exit status 128"%string))
                    (Repository.fixedController "/repo" "0a1b2c") [] ["{}"%string])))).
    reflexivity.
  - apply (proj1 (proj2 (RepositoryFacts.getSHA_outcomes
                    (Repository.fixedHost " M main.go" None)
                    (Repository.fixedController "/repo" "0a1b2c") []
                    ["{ M main.go}"%string]))).
    reflexivity.
Defined.

(** Stopping a timer that was never started. *)
Lemma StopTimer_adds_no_timer_witness :
  Benchmark.timers
    (Benchmark.StopTimer "build" 7 {| Benchmark.timers := ∅; Benchmark.stdout := [] |})
  = ∅
  /\ Benchmark.stdout
       (Benchmark.StopTimer "build" 7 {| Benchmark.timers := ∅; Benchmark.stdout := [] |})
     = [] ++ ["Timer " +:+ "build" +:+ " doesn't exist" +:+ Benchmark.newline].
Proof.
  apply (proj1 (proj2 (BenchmarkFacts.StopTimer_adds_no_timer "build" 7
                         {| Benchmark.timers := ∅; Benchmark.stdout := [] |}))).
  reflexivity.
Defined.

(** A timer started at 3 and stopped at 9, with calls on others in between. *)
Lemma timer_keeps_its_span_witness :
  Benchmark.timers
    (Benchmark.StopTimer "build" 9
       (Benchmark.runCalls [Benchmark.Start "push" 5; Benchmark.Stop "deploy" 6;
                            Benchmark.Stop "push" 8]
          (Benchmark.StartTimer "build" 3
             {| Benchmark.timers := ∅; Benchmark.stdout := [] |})))
    !! "build"%string
  = Some {| Benchmark.start := 3; Benchmark.end_ := 9 |}.
Proof.
  apply (BenchmarkFacts.timer_keeps_its_span "build" 3 9
           [Benchmark.Start "push" 5; Benchmark.Stop "deploy" 6;
            Benchmark.Stop "push" 8]
           {| Benchmark.timers := ∅; Benchmark.stdout := [] |}).
  repeat (apply Forall_cons; split; [discriminate|]). apply Forall_nil_2.
Defined.
(** The three calls on a free and on a held mutex, one timer running. *)
Lemma timers_release_the_lock_witness :
  (exists st',
     BenchmarkLocked.StopTimer (fun name _ => name) ["build"%string] "build" 9
       {| BenchmarkLocked.inner :=
            Benchmark.StartTimer "build" 3
              {| Benchmark.timers := ∅; Benchmark.stdout := [] |};
          BenchmarkLocked.locked := false |} = Some st'
     /\ BenchmarkLocked.locked st' = false)
  /\ BenchmarkLocked.StopTimer (fun name _ => name) ["build"%string] "build" 9
       {| BenchmarkLocked.inner :=
            Benchmark.StartTimer "build" 3
              {| Benchmark.timers := ∅; Benchmark.stdout := [] |};
          BenchmarkLocked.locked := true |} = None.
Proof.
  split.
  - apply (proj1 (BenchmarkLockedFacts.timers_release_the_lock (fun name _ => name)
                    ["build"%string] "build" 9
                    {| BenchmarkLocked.inner :=
                         Benchmark.StartTimer "build" 3
                           {| Benchmark.timers := ∅; Benchmark.stdout := [] |};
                       BenchmarkLocked.locked := false |})).
    reflexivity.
  - apply (proj2 (BenchmarkLockedFacts.timers_release_the_lock (fun name _ => name)
                    ["build"%string] "build" 9
                    {| BenchmarkLocked.inner :=
                         Benchmark.StartTimer "build" 3
                           {| Benchmark.timers := ∅; Benchmark.stdout := [] |};
                       BenchmarkLocked.locked := true |})).
    reflexivity.
Defined.

(** The table of two timers, the map yielding the names in either order. *)
Lemma PrintTimers_table_witness :
  BenchmarkLocked.PrintTimers (fun name _ => name) ["push"; "build"]%string
    {| BenchmarkLocked.inner :=
         Benchmark.StartTimer "push" 5
           (Benchmark.StartTimer "build" 3
              {| Benchmark.timers := ∅; Benchmark.stdout := [] |});
       BenchmarkLocked.locked := false |}
  = BenchmarkLocked.PrintTimers (fun name _ => name) ["build"; "push"]%string
      {| BenchmarkLocked.inner :=
           Benchmark.StartTimer "push" 5
             (Benchmark.StartTimer "build" 3
                {| Benchmark.timers := ∅; Benchmark.stdout := [] |});
         BenchmarkLocked.locked := false |}.
Proof.
  apply (BenchmarkLockedFacts.PrintTimers_table (fun name _ => name)
           ["push"; "build"]%string ["build"; "push"]%string
           {| BenchmarkLocked.inner :=
                Benchmark.StartTimer "push" 5
                  (Benchmark.StartTimer "build" 3
                     {| Benchmark.timers := ∅; Benchmark.stdout := [] |});
              BenchmarkLocked.locked := false |}).
  - reflexivity.
  - apply Permutation_swap.
Defined.

(** Stopping the one running timer at instant 9. *)
Lemma StopTimer_prints_the_table_witness :
  exists st',
    BenchmarkLocked.StopTimer (fun name _ => name) ["build"%string] "build" 9
      {| BenchmarkLocked.inner :=
           Benchmark.StartTimer "build" 3
             {| Benchmark.timers := ∅; Benchmark.stdout := [] |};
         BenchmarkLocked.locked := false |} = Some st'
    /\ Benchmark.timers (BenchmarkLocked.inner st') !! "build"%string
       = Some {| Benchmark.start := 3; Benchmark.end_ := 9 |}
    /\ BenchmarkLocked.header ∈ Benchmark.stdout (BenchmarkLocked.inner st')
    /\ "build"%string ∈ Benchmark.stdout (BenchmarkLocked.inner st').
Proof.
  apply (proj1 (BenchmarkLockedFacts.StopTimer_prints_the_table (fun name _ => name)
                  ["build"%string] "build" 9
                  {| BenchmarkLocked.inner :=
                       Benchmark.StartTimer "build" 3
                         {| Benchmark.timers := ∅; Benchmark.stdout := [] |};
                     BenchmarkLocked.locked := false |} eq_refl)
           {| Benchmark.start := 3; Benchmark.end_ := Benchmark.zeroTime |}).
  - reflexivity.
  - apply list_elem_of_here.
Defined.
End MoreRuns.
